(** * t4: the typed procedure registry, the health feature and the
      request/hydration bridge

    A shallow embedding of
      - [features/health/schemas/health.schema.ts] (the zod contracts),
      - the health router ([check], [ping], [log]),
      - the assembled [appRouter],
      - the server-side bridge ([getQueryClient], [prefetch], [HydrateClient]),
    together with the properties stated about them. *)

From Stdlib Require Import ZArith Lia.
From stdpp Require Import base strings gmap list.

Local Open Scope string_scope.
Set Warnings "-register-all".

(** ** JavaScript values *)

Module Js.

(** Runtime values as the procedures see them.  Numbers: the only numbers
    this program computes with are clock readings in milliseconds and the
    result of [Math.floor], all integers far below 2^53, so the payload is
    an integer; the schema checks look at the type tag only. *)
Inductive value : Type :=
| VUndefined
| VNull
| VBool (b : bool)
| VNum (n : Z)
| VStr (s : string)
| VDate (ms : Z)
| VArr (items : list value)
| VObj (fields : list (string * value)).

(** Own-property lookup in an object literal's field list. *)
Fixpoint assoc (k : string) (fs : list (string * value)) : option value :=
  match fs with
  | [] => None
  | (k', v) :: fs' => if bool_decide (k' = k) then Some v else assoc k fs'
  end.

(** [k in v] for an object. *)
Definition has_prop (v : value) (k : string) : bool :=
  match v with
  | VObj fs => bool_decide (is_Some (assoc k fs))
  | _ => false
  end.

(** [v.k] on a receiver that is neither [null] nor [undefined], for a
    property name that is not a built-in member ([type], [echo],
    [status], ...): absent properties read as [undefined]. *)
Definition get_prop (v : value) (k : string) : value :=
  match v with
  | VObj fs => default VUndefined (assoc k fs)
  | _ => VUndefined
  end.

(** [v?.k] *)
Definition opt_chain (v : value) (k : string) : value :=
  match v with
  | VUndefined | VNull => VUndefined
  | _ => get_prop v k
  end.

(** [a[i]] on an array: out of range reads as [undefined]. *)
Definition index (a : list value) (i : nat) : value :=
  default VUndefined (a !! i).

(** [v === "s"] against a string literal. *)
Definition strict_eq_str (v : value) (s : string) : bool :=
  match v with
  | VStr s' => bool_decide (s' = s)
  | _ => false
  end.

(** [o ?? d] at type [string | undefined]. *)
Definition nullish_str (o : option string) (d : string) : string :=
  default d o.

(** A [string | undefined] as a value. *)
Definition of_opt_str (o : option string) : value :=
  match o with
  | Some s => VStr s
  | None => VUndefined
  end.

(** Follow a path of property names from a root value. *)
Fixpoint at_path (v : value) (p : list string) : value :=
  match p with
  | [] => v
  | k :: p' => at_path (get_prop v k) p'
  end.

End Js.
Import Js.

(** ** The schema library, as far as the health contracts use it *)

Module Zod.

Inductive Schema : Type :=
| ZString
| ZNumber
| ZDate
| ZEnum (options : list string)
| ZOptional (inner : Schema)
| ZObject (shape : list (string * Schema)).

(** What a failed check was looking for. *)
Inductive Expected : Type :=
| ExpString
| ExpNumber
| ExpDate
| ExpObject
| ExpOneOf (options : list string).

Record Issue : Type := mkIssue {
  issue_path : list string;
  issue_expected : Expected;
}.

Inductive ParseResult (A : Type) : Type :=
| Parsed (out : A)
| Invalid (issues : list Issue).
Arguments Parsed {A} out.
Arguments Invalid {A} issues.

(** Does a value have the expected runtime shape?  An object is any
    value of type [object] that is neither [null] nor an array: an object
    literal, and a [Date] as well. *)
Definition conforms (e : Expected) (v : value) : bool :=
  match e, v with
  | ExpString, VStr _ => true
  | ExpNumber, VNum _ => true
  | ExpDate, VDate _ => true
  | ExpObject, VObj _ => true
  | ExpObject, VDate _ => true
  | ExpOneOf opts, VStr s => bool_decide (s ∈ opts)
  | _, _ => false
  end.

Definition check (e : Expected) (path : list string) (v : value)
  : ParseResult value :=
  if conforms e v then Parsed v else Invalid [mkIssue path e].

(** Merge the result for one key into the result for the keys after it:
    all issues are reported, and a key is kept in the output when it is
    present in the input or its parsed value is defined. *)
Definition merge_field (input : value) (k : string)
    (r : ParseResult value) (rest : ParseResult (list (string * value)))
  : ParseResult (list (string * value)) :=
  match r, rest with
  | Parsed out, Parsed fs =>
      match out with
      | VUndefined => if has_prop input k then Parsed ((k, out) :: fs) else Parsed fs
      | _ => Parsed ((k, out) :: fs)
      end
  | Parsed _, Invalid issues2 => Invalid issues2
  | Invalid issues1, Parsed _ => Invalid issues1
  | Invalid issues1, Invalid issues2 => Invalid (issues1 ++ issues2)
  end.

(** [schema.safeParse(v)], with the path of the value being parsed.
    Objects strip unknown keys.  An object schema reads its keys off any
    object, so a [Date], which has none of them, is parsed like the empty
    object. *)
Fixpoint parse_at (s : Schema) (path : list string) (v : value)
  : ParseResult value :=
  match s with
  | ZString => check ExpString path v
  | ZNumber => check ExpNumber path v
  | ZDate => check ExpDate path v
  | ZEnum opts => check (ExpOneOf opts) path v
  | ZOptional inner =>
      match v with
      | VUndefined => Parsed VUndefined
      | _ => parse_at inner path v
      end
  | ZObject shape =>
      match v with
      | VObj _ | VDate _ =>
          let fix fields (sh : list (string * Schema))
            : ParseResult (list (string * value)) :=
            match sh with
            | [] => Parsed []
            | (k, sk) :: sh' =>
                merge_field v k (parse_at sk (path ++ [k]) (get_prop v k))
                            (fields sh')
            end in
          match fields shape with
          | Parsed fs => Parsed (VObj fs)
          | Invalid issues => Invalid issues
          end
      | _ => Invalid [mkIssue path ExpObject]
      end
  end.

Definition safeParse (s : Schema) (v : value) : ParseResult value :=
  parse_at s [] v.

End Zod.
Import Zod.

(** What an issue says: under the path being parsed, at the issue's path,
    the input does not have the expected shape. *)
Definition issue_located (path : list string) (v : value) (i : Issue) : Prop :=
  exists suffix,
    issue_path i = (path ++ suffix)%list /\
    conforms (issue_expected i) (at_path v suffix) = false.

(** ** features/health/schemas/health.schema.ts *)

Definition healthCheckSchema : Schema :=
  ZObject [ ("status", ZEnum ["ok"; "degraded"; "error"]);
            ("timestamp", ZDate);
            ("version", ZString);
            ("uptime", ZNumber) ].

Definition pingSchema : Schema :=
  ZObject [ ("message", ZString);
            ("echo", ZOptional ZString) ].

Definition pingInputSchema : Schema :=
  ZObject [ ("echo", ZOptional ZString) ].

(** [PingInput = z.infer<typeof pingInputSchema>], that is [{ echo?: string }]. *)
Record PingInput : Type := mkPingInput { echo : option string }.

(** A value that passed [pingInputSchema], viewed at its inferred type. *)
Definition asPingInput (v : value) : PingInput :=
  {| echo := match get_prop v "echo" with
             | VStr s => Some s
             | _ => None
             end |}.

(** ** The process environment the handlers run in *)

(** [clock] gives the successive readings of the system clock in
    milliseconds ([Date.now()], [new Date()]); [reads] counts the readings
    taken so far.  [console] is the text written by [console.log], oldest
    first.  [resolver_runs] counts the resolver executions, for stating
    that a resolver did not run. *)
Record Env : Type := mkEnv {
  clock : nat -> Z;
  reads : nat;
  npm_package_version : option string;
  console : list string;
  resolver_runs : nat;
}.

(** [Date.now()]: the next clock reading. *)
Definition Date_now (e : Env) : Z * Env :=
  (clock e (reads e),
   mkEnv (clock e) (S (reads e)) (npm_package_version e) (console e)
         (resolver_runs e)).

(** [new Date()]: a date object holding the next clock reading. *)
Definition Date_new (e : Env) : value * Env :=
  let '(t, e') := Date_now e in (VDate t, e').

Definition console_log (line : string) (e : Env) : Env :=
  mkEnv (clock e) (reads e) (npm_package_version e) (console e ++ [line])
        (resolver_runs e).

Definition count_run (e : Env) : Env :=
  mkEnv (clock e) (reads e) (npm_package_version e) (console e)
        (S (resolver_runs e)).

(** ** The procedure registry ([@/trpc/init]) *)

Module Trpc.

Inductive ProcKind : Type := query | mutation | subscription.

(** Modelled from the spec: the error taxonomy of section 7; the
    registry's own error type is declared in [@/trpc/init] and the
    library behind it. *)
Inductive ProcError : Type :=
| ValidationError (issues : list Issue)
| AuthError
| NotFoundError (path : string)
| InternalError (path : string) (message : string).

Inductive CallResult : Type :=
| Success (data : value)
| Failure (err : ProcError).

(** What a resolver does: return a result or throw. *)
Inductive Outcome : Type :=
| Return (data : value)
| Throw (message : string).

(** A procedure: its kind, the type of its validated input, the input
    validator and the resolver. *)
Record Procedure : Type := mkProcedure {
  proc_kind : ProcKind;
  proc_input : Type;
  proc_validate : value -> ParseResult proc_input;
  proc_resolver : proc_input -> Env -> Outcome * Env;
}.

(** Modelled from the spec: [baseProcedure] (declared in [@/trpc/init])
    carries no authorization check.  [baseProcedure.query(resolver)] and
    [baseProcedure.mutation(resolver)] have no input validator; the
    resolver receives no input. *)
Definition procedure (k : ProcKind) (resolver : Env -> Outcome * Env)
  : Procedure :=
  mkProcedure k unit (fun _ => Parsed tt) (fun _ => resolver).

(** Modelled from the spec: [baseProcedure.input(schema).query(resolver)]
    and [....mutation(resolver)] validate the raw input against [schema];
    [view] reads a value that passed at the schema's inferred type. *)
Definition procedure_with_input {I : Type} (k : ProcKind) (schema : Schema)
    (view : value -> I) (resolver : I -> Env -> Outcome * Env) : Procedure :=
  mkProcedure k I
    (fun raw => match safeParse schema raw with
                | Parsed out => Parsed (view out)
                | Invalid issues => Invalid issues
                end)
    resolver.

(** Modelled from the spec: invoking a procedure (section 4.1; the
    implementation is [@/trpc/init] and the library behind it).  Input
    failing validation short-circuits with a [ValidationError] carrying
    the issues; otherwise the resolver runs, its result is returned
    unchanged and an error it throws is wrapped with the procedure path. *)
Definition call (path : string) (p : Procedure) (raw : value) (e : Env)
  : CallResult * Env :=
  match proc_validate p raw with
  | Invalid issues => (Failure (ValidationError issues), e)
  | Parsed input =>
      match proc_resolver p input (count_run e) with
      | (Return data, e') => (Success data, e')
      | (Throw msg, e') => (Failure (InternalError path msg), e')
      end
  end.

(** An entry of the record given to [createTRPCRouter]: a procedure or an
    already built sub-router. *)
Inductive RouterEntry : Type :=
| EntryProc (p : Procedure)
| EntryRouter (r : gmap string Procedure).

Definition add_entry (r : gmap string Procedure)
    (kv : string * RouterEntry) : gmap string Procedure :=
  match kv.2 with
  | EntryProc p => <[kv.1 := p]> r
  | EntryRouter sub =>
      foldl (fun acc kp => <[kv.1 +:+ "." +:+ kp.1 := kp.2]> acc) r
            (map_to_list sub)
  end.

(** Modelled from the spec: [createTRPCRouter] (declared in
    [@/trpc/init]) builds the registry, a map from dotted paths to
    procedures; the procedures of a sub-router registered under [name]
    get the paths [name.child]. *)
Definition createTRPCRouter (entries : list (string * RouterEntry))
  : gmap string Procedure :=
  foldl add_entry ∅ entries.

(** Modelled from the spec: invocation by dotted path (sections 4.1 and
    8): lookups are by exact path, and a path that is not registered fails
    with a [NotFoundError]. *)
Definition invoke (router : gmap string Procedure) (path : string)
    (raw : value) (e : Env) : CallResult * Env :=
  match router !! path with
  | Some p => call path p raw e
  | None => (Failure (NotFoundError path), e)
  end.

End Trpc.
Import Trpc.

(** ** The health router *)

Section HealthRouter.

(** [const startTime = Date.now()], read once when the module is loaded. *)
Variable startTime : Z.

(** [Math.floor((now - startTime) / 1000)].  The quotient of an integer
    below 2^53 by 1000 is either an integer or at least 1/1000 away from
    one, more than the rounding error of the division, so the floor of
    the floating-point quotient is the integer floor. *)
Definition uptime_at (now : Z) : Z := ((now - startTime) / 1000)%Z.

Definition check_resolver (e : Env) : Outcome * Env :=
  let '(timestamp, e1) := Date_new e in
  let version := nullish_str (npm_package_version e1) "0.0.1" in
  let '(now, e2) := Date_now e1 in
  (Return (VObj [ ("status", VStr "ok");
                  ("timestamp", timestamp);
                  ("version", VStr version);
                  ("uptime", VNum (uptime_at now)) ]),
   e2).

Definition ping_resolver (input : PingInput) (e : Env) : Outcome * Env :=
  (Return (VObj [ ("message", VStr "pong");
                  ("echo", of_opt_str (echo input)) ]),
   e).

Definition log_resolver (input : PingInput) (e : Env) : Outcome * Env :=
  let e1 := console_log ("[Health Log] " +:+ nullish_str (echo input) "No message") e in
  let '(timestamp, e2) := Date_new e1 in
  (Return (VObj [ ("logged", VBool true);
                  ("timestamp", timestamp) ]),
   e2).

Definition health_check : Procedure := procedure query check_resolver.
Definition health_ping : Procedure :=
  procedure_with_input query pingInputSchema asPingInput ping_resolver.
Definition health_log : Procedure :=
  procedure_with_input mutation pingInputSchema asPingInput log_resolver.

Definition healthRouter : gmap string Procedure :=
  createTRPCRouter [ ("check", EntryProc health_check);
                     ("ping", EntryProc health_ping);
                     ("log", EntryProc health_log) ].

(** ** The assembled router *)

Definition appRouter : gmap string Procedure :=
  createTRPCRouter [ ("health", EntryRouter healthRouter) ].

End HealthRouter.

(** Loading the health module reads the clock once. *)
Definition load_health (e : Env) : Z * Env := Date_now e.

(** The clock reading that [Date.now()] in the [check] resolver takes when
    the procedure is called in [e]: the one after [new Date()]'s. *)
Definition call_time (e : Env) : Z := clock e (S (reads e)).

(** For the examples: a process whose clock advances 2.5 seconds between
    readings, started from a package at version 1.4.2. *)
Definition sample_env : Env :=
  mkEnv (fun n => 1000 + 2500 * Z.of_nat n)%Z 0 (Some "1.4.2") [] 0.

(** The inputs [pingInputSchema] describes: an object whose [echo] is
    absent, [undefined] or a string. *)
Definition valid_ping_input (raw : value) : Prop :=
  exists fields, raw = VObj fields /\
    (get_prop raw "echo" = VUndefined \/ exists s, get_prop raw "echo" = VStr s).

(** ** db/schema/example.ts and db/seed.ts *)

Module Db.

(** [typeof users.$inferSelect]: a stored row of [users].  The two
    timestamp columns hold seconds ([mode: "timestamp"]). *)
Record User : Type := mkUser {
  user_id : string;
  user_name : string;
  user_email : string;
  user_createdAt : Z;
  user_updatedAt : Z;
}.

(** [typeof users.$inferInsert]: the columns with a default may be left
    out; a date that is given is in milliseconds. *)
Record NewUser : Type := mkNewUser {
  new_id : string;
  new_name : string;
  new_email : string;
  new_createdAt : option Z;
  new_updatedAt : option Z;
}.

Inductive DbError : Type :=
| NoValues                 (* [values([])] *)
| UniqueConstraintFailed.  (* a primary-key or unique column repeats *)

(** The row stored for [n] by a statement run at [now] seconds: a missing
    timestamp takes the default [unixepoch()], a given one is cut to
    seconds. *)
Definition stored (now : Z) (n : NewUser) : User :=
  mkUser (new_id n) (new_name n) (new_email n)
         (from_option (fun ms => ms / 1000)%Z now (new_createdAt n))
         (from_option (fun ms => ms / 1000)%Z now (new_updatedAt n)).

(** [id] is the primary key and [email] is unique. *)
Definition conflicts (t : list User) (n : NewUser) : bool :=
  bool_decide (new_id n ∈ user_id <$> t) ||
  bool_decide (new_email n ∈ user_email <$> t).

Fixpoint insert_rows (now : Z) (rows : list NewUser) (t : list User)
  : option (list User) :=
  match rows with
  | [] => Some t
  | n :: rows' =>
      if conflicts t n then None
      else insert_rows now rows' (t ++ [stored now n])
  end.

(** [db.insert(users).values(rows)]: one statement; when a row violates a
    constraint the statement fails and inserts nothing. *)
Definition insert_values (now : Z) (rows : list NewUser) (t : list User)
  : DbError + list User :=
  match rows with
  | [] => inl NoValues
  | _ => match insert_rows now rows t with
         | Some t' => inr t'
         | None => inl UniqueConstraintFailed
         end
  end.

(** [db.delete(users)], without a condition. *)
Definition delete_all (t : list User) : list User := [].

(** The seeding process: the [users] table, the lines written by
    [console.log], what [console.error] was given, and the exit code once
    [process.exit] was called. *)
Record Process : Type := mkProcess {
  table : list User;
  logged : list string;
  errors : list (string * DbError);
  exit_code : option nat;
}.

(** The rows [seed] inserts, given the two results of
    [crypto.randomUUID()]. *)
Definition seed_rows (uuid1 uuid2 : string) : list NewUser :=
  [ mkNewUser uuid1 "Admin User" "admin@example.com" None None;
    mkNewUser uuid2 "Test User" "test@example.com" None None ].

(** [seed().catch(...)]: the two statements run one after the other, not
    in a transaction. *)
Definition seed (uuid1 uuid2 : string) (now : Z) (p : Process) : Process :=
  let logged1 := (logged p ++ ["Seeding database..."])%list in
  let t1 := delete_all (table p) in
  match insert_values now (seed_rows uuid1 uuid2) t1 with
  | inr t2 =>
      mkProcess t2 (logged1 ++ ["Seeding complete!"])%list (errors p) (exit_code p)
  | inl err =>
      mkProcess t1 logged1 (errors p ++ [("Seeding failed:", err)])%list (Some 1%nat)
  end.

(** No two rows share an [id] or an [email]. *)
Definition unique_keys (t : list User) : Prop :=
  NoDup (user_id <$> t) /\ NoDup (user_email <$> t).

End Db.

(** ** The sync script *)

Module Sync.

(** The commands the script runs. *)
Inductive Cmd : Type :=
| GitBranchShowCurrent
| GitStatusPorcelain
| GitStashPush
| GitPullRebase (branch : string)
| GitStashPop
| GitAddAll
| GitCommit (message : string)
| GitPush (branch : string)
| GitPushUpstream (branch : string).

(** What a command gives back: its exit status and, for a command run in
    [$(...)], the captured output. *)
Record CmdResult : Type := mkResult { status : nat; output : string }.

(** What the script does, in order. *)
Inductive Action : Type :=
| Ran (c : Cmd)
| Echo (line : string).

(** A script step: given what was done so far, a value or the exit status
    the script stopped with, and what was done. *)
Definition Script (A : Type) : Type := list Action -> (A + nat) * list Action.

Definition ret {A : Type} (a : A) : Script A := fun done_ => (inl a, done_).

Definition bind {A B : Type} (m : Script A) (k : A -> Script B) : Script B :=
  fun done_ =>
    match m done_ with
    | (inl a, done') => k a done'
    | (inr code, done') => (inr code, done')
    end.

Definition echo (line : string) : Script unit :=
  fun done_ => (inl tt, (done_ ++ [Echo line])%list).

Definition exit {A : Type} (code : nat) : Script A :=
  fun done_ => (inr code, done_).

Section WithShell.

(** The outcome of each command in the repository the script runs in;
    the script runs no command twice. *)
Variable sh : Cmd -> CmdResult.

(** A command whose failure is tolerated: in an [if] condition, before
    [||], or inside the substitution of a test. *)
Definition attempt (c : Cmd) : Script CmdResult :=
  fun done_ => (inl (sh c), (done_ ++ [Ran c])%list).

(** A command under [set -e]: a failure stops the script with the
    command's status. *)
Definition must (c : Cmd) : Script CmdResult :=
  bind (attempt c) (fun r => if decide (status r = 0%nat) then ret r else exit (status r)).

Definition RED : string := "\033[0;31m".
Definition GREEN : string := "\033[0;32m".
Definition YELLOW : string := "\033[1;33m".
Definition NC : string := "\033[0m".

(** A double quote. *)
Definition dq : string := String (Ascii.ascii_of_nat 34) EmptyString.

(** The script, called with the commit message [COMMIT_MSG] ([$1], empty
    when there is none). *)
Definition sync (COMMIT_MSG : string) : Script unit :=
  if decide (COMMIT_MSG = "") then
    bind (echo (RED +:+ "Error: Commit message required" +:+ NC)) (fun _ =>
    bind (echo ("Usage: bun run sync " +:+ dq +:+ "type: message" +:+ dq)) (fun _ =>
    bind (echo ("Example: bun run sync " +:+ dq +:+ "feat: add new feature" +:+ dq)) (fun _ =>
    exit 1%nat)))
  else
    bind (must GitBranchShowCurrent) (fun b =>
    let BRANCH := output b in
    bind (echo (YELLOW +:+ "Branch:" +:+ NC +:+ " " +:+ BRANCH)) (fun _ =>
    bind (attempt GitStatusPorcelain) (fun st =>
    if decide (output st = "") then
      bind (echo (YELLOW +:+ "No changes to commit" +:+ NC)) (fun _ =>
      exit 0%nat)
    else
      bind (echo (YELLOW +:+ "Stashing changes..." +:+ NC)) (fun _ =>
      bind (must GitStashPush) (fun _ =>
      bind (echo (YELLOW +:+ "Pulling with rebase..." +:+ NC)) (fun _ =>
      bind (attempt (GitPullRebase BRANCH)) (fun pull =>
      bind (if decide (status pull = 0%nat)
            then echo (GREEN +:+ "Pull successful" +:+ NC)
            else echo (YELLOW +:+ "No remote branch or nothing to pull" +:+ NC)) (fun _ =>
      bind (echo (YELLOW +:+ "Restoring changes..." +:+ NC)) (fun _ =>
      bind (attempt GitStashPop) (fun _ =>
      bind (echo (YELLOW +:+ "Staging changes..." +:+ NC)) (fun _ =>
      bind (must GitAddAll) (fun _ =>
      bind (echo (YELLOW +:+ "Committing..." +:+ NC)) (fun _ =>
      bind (must (GitCommit COMMIT_MSG)) (fun _ =>
      bind (echo (YELLOW +:+ "Pushing to origin/" +:+ BRANCH +:+ "..." +:+ NC)) (fun _ =>
      bind (attempt (GitPush BRANCH)) (fun push =>
      bind (if decide (status push = 0%nat)
            then echo (GREEN +:+ "Push successful" +:+ NC)
            else bind (echo (YELLOW +:+ "Setting upstream and pushing..." +:+ NC)) (fun _ =>
                 bind (must (GitPushUpstream BRANCH)) (fun _ => ret tt))) (fun _ =>
      echo (GREEN +:+ "✓ Sync complete!" +:+ NC)))))))))))))))))).

(** Running the script: the exit status and what was done. *)
Definition run_sync (COMMIT_MSG : string) : nat * list Action :=
  match sync COMMIT_MSG [] with
  | (inl _, done_) => (0%nat, done_)
  | (inr code, done_) => (code, done_)
  end.

End WithShell.

(** The commands among the actions, in order. *)
Definition commands (acts : list Action) : list Cmd :=
  omap (fun a => match a with Ran c => Some c | Echo _ => None end) acts.

(** For the examples: a repository on a new branch [feature] with one
    modified file; there is no remote branch yet, so the pull and the
    first push fail. *)
Definition new_branch_repo (c : Cmd) : CmdResult :=
  match c with
  | GitBranchShowCurrent => mkResult 0 "feature"
  | GitStatusPorcelain => mkResult 0 " M README.md"
  | GitPullRebase _ => mkResult 1 ""
  | GitPush _ => mkResult 128 ""
  | _ => mkResult 0 ""
  end.

(** For the examples: the same repository once the remote branch exists,
    with a stash that does not apply cleanly. *)
Definition tracked_branch_repo (c : Cmd) : CmdResult :=
  match c with
  | GitPullRebase _ => mkResult 0 ""
  | GitStashPop => mkResult 1 ""
  | _ => new_branch_repo c
  end.

(** The commands of a complete run, in the order of the script. *)
Definition plan (COMMIT_MSG BRANCH : string) : list Cmd :=
  [ GitBranchShowCurrent; GitStatusPorcelain; GitStashPush;
    GitPullRebase BRANCH; GitStashPop; GitAddAll; GitCommit COMMIT_MSG;
    GitPush BRANCH; GitPushUpstream BRANCH ].

(** The commands that change the repository or the remote. *)
Definition changes_repository (c : Cmd) : bool :=
  match c with
  | GitBranchShowCurrent | GitStatusPorcelain => false
  | _ => true
  end.

End Sync.

(** ** The query cache, as far as the bridge drives it *)

Module QueryCache.

(** The state machine of a cache entry: [pending], then [success] or
    [error]. *)
Inductive Status : Type := pending | success | error.

Record Query : Type := mkQuery {
  q_status : Status;
  q_fetching : bool;            (* a fetch is in flight *)
  q_data : option value;        (* the last known result *)
  q_error : option ProcError;
}.

(** The options a procedure reference produces: the key is
    [[path, { input, type }]]. *)
Record QueryOptions : Type := mkQueryOptions { queryKey : list value }.

(** A cache keeps its entries in insertion order, keyed by the hash of
    the query key. *)
Fixpoint entry (h : string) (qs : list (string * Query)) : option Query :=
  match qs with
  | [] => None
  | (h', q) :: qs' => if bool_decide (h' = h) then Some q else entry h qs'
  end.

(** Setting a key keeps the position of an existing entry and appends a
    new one. *)
Fixpoint set_entry (h : string) (q : Query) (qs : list (string * Query))
  : list (string * Query) :=
  match qs with
  | [] => [(h, q)]
  | (h', q') :: qs' =>
      if bool_decide (h' = h) then (h, q) :: qs'
      else (h', q') :: set_entry h q qs'
  end.

Record QueryClient : Type := mkClient { queries : list (string * Query) }.

(** The two population routines the bridge can start. *)
Inductive Routine : Type := PrefetchQuery | PrefetchInfiniteQuery.

End QueryCache.
Import QueryCache.

(** ** The server-side bridge *)

(** The server process: the query clients allocated so far, the
    memoization table of [getQueryClient] (one slot per render scope), and
    the record of the population routines started, oldest first. *)
Record World : Type := mkWorld {
  heap : gmap nat QueryClient;
  next : nat;
  memo : gmap nat nat;
  started : list (nat * Routine * string);
}.

Definition init : World := mkWorld ∅ 0 ∅ [].

(** The cache library's default dehydrate filter: settled with success. *)
Definition defaultShouldDehydrateQuery (q : Query) : bool :=
  match q_status q with
  | success => true
  | _ => false
  end.

(** A filter that also admits entries still pending. *)
Definition shouldDehydratePendingToo (q : Query) : bool :=
  defaultShouldDehydrateQuery q ||
  match q_status q with
  | pending => true
  | _ => false
  end.

(** The cache library's default stale time is zero: data is stale at once. *)
Definition staleTimeZero (q : Query) : bool := true.

(** For the examples: a key hash that names a key by its procedure path. *)
Definition pathHash (key : list value) : string :=
  match key with
  | VArr path :: _ =>
      String.concat "." (omap (fun v => match v with VStr s => Some s | _ => None end) path)
  | _ => ""
  end.

(** [trpc.health.check.queryOptions()] *)
Definition healthCheckOptions : QueryOptions :=
  mkQueryOptions [ VArr [VStr "health"; VStr "check"];
                   VObj [("type", VStr "query")] ].

Section Bridge.

(** The cache library's hash of a query key. *)
Variable hashKey : list value -> string.
(** The dehydrate filter and the time-based staleness verdict of the
    clients [makeQueryClient] builds; they are set in [./query-client]. *)
Variable shouldDehydrateQuery : Query -> bool.
Variable staleByTime : Query -> bool.

(** Modelled from the spec: [makeQueryClient] (declared in
    [./query-client]) constructs a new, empty query-cache instance on
    every call. *)
Definition makeQueryClient (w : World) : nat * World :=
  (next w,
   mkWorld (<[next w := mkClient []]> (heap w)) (S (next w)) (memo w)
           (started w)).

(** [cache(f)], called in render scope [r]: the first call in a scope
    runs [f] and remembers the result for that scope; later calls in the
    same scope return it. *)
Definition cache (f : World -> nat * World) (r : nat) (w : World)
  : nat * World :=
  match memo w !! r with
  | Some c => (c, w)
  | None =>
      let '(c, w') := f w in
      (c, mkWorld (heap w') (next w') (<[r := c]> (memo w')) (started w'))
  end.

Definition getQueryClient : nat -> World -> nat * World :=
  cache makeQueryClient.

(** An entry without data is stale; one with data is stale by time. *)
Definition isStale (q : Query) : bool :=
  match q_data q with
  | None => true
  | Some _ => staleByTime q
  end.

(** Starting a fetch: the entry is fetching, and [pending] until it has
    data. *)
Definition start_fetch (q : Query) : Query :=
  mkQuery (match q_data q with None => pending | Some _ => q_status q end)
          true (q_data q)
          (match q_data q with None => None | Some _ => q_error q end).

(** What a population routine does to the entry of its key: build the
    entry if there is none, and start a fetch unless one is in flight or
    the data is fresh.  The routine returns a promise and does not wait. *)
Definition populate (o : option Query) : Query :=
  match o with
  | None => mkQuery pending true None None
  | Some q =>
      if q_fetching q then q
      else if isStale q then start_fetch q else q
  end.

Definition on_client (c : nat) (f : QueryClient -> QueryClient) (w : World)
  : World :=
  match heap w !! c with
  | Some qc => mkWorld (<[c := f qc]> (heap w)) (next w) (memo w) (started w)
  | None => w
  end.

Definition run_routine (which : Routine) (c : nat) (opts : QueryOptions)
    (w : World) : World :=
  let h := hashKey (queryKey opts) in
  let w' := on_client c
              (fun qc => mkClient (set_entry h (populate (entry h (queries qc)))
                                             (queries qc))) w in
  mkWorld (heap w') (next w') (memo w') (started w' ++ [(c, which, h)]).

Definition prefetchQuery := run_routine PrefetchQuery.
Definition prefetchInfiniteQuery := run_routine PrefetchInfiniteQuery.

(** The fetch of entry [h] settles with [res]. *)
Definition settled (res : CallResult) (q : Query) : Query :=
  match res with
  | Success d => mkQuery success false (Some d) None
  | Failure e => mkQuery error false (q_data q) (Some e)
  end.

Definition settle_entry (h : string) (res : CallResult) (qc : QueryClient)
  : QueryClient :=
  match entry h (queries qc) with
  | Some q =>
      if q_fetching q then mkClient (set_entry h (settled res q) (queries qc))
      else qc
  | None => qc
  end.

(** [dehydrate(queryClient)]: the entries the filter admits, in cache
    order, with the state they have at the time of the call. *)
Definition dehydrate (qc : QueryClient) : list (string * Query) :=
  filter (fun hq => shouldDehydrateQuery hq.2 = true) (queries qc).

(** [prefetch(queryOptions)] in render scope [r]. *)
Definition prefetch (r : nat) (queryOptions : QueryOptions) (w : World)
  : World :=
  let '(queryClient, w1) := getQueryClient r w in
  if strict_eq_str (opt_chain (index (queryKey queryOptions) 1) "type")
                   "infinite"
  then prefetchInfiniteQuery queryClient queryOptions w1
  else prefetchQuery queryClient queryOptions w1.

(** [HydrateClient(props)] in render scope [r]: the state handed to the
    hydration boundary. *)
Definition HydrateClient (r : nat) (w : World)
  : list (string * Query) * World :=
  let '(queryClient, w1) := getQueryClient r w in
  (match heap w1 !! queryClient with
   | Some qc => dehydrate qc
   | None => []
   end, w1).

(** The event loop delivers the outcome of the fetch of entry [h] in the
    cache of render scope [r]. *)
Definition settle (r : nat) (h : string) (res : CallResult) (w : World)
  : World :=
  match memo w !! r with
  | Some c => on_client c (settle_entry h res) w
  | None => w
  end.

(** What can happen on the server, one step at a time; renders
    interleave at these steps. *)
Inductive Event : Type :=
| EvPrefetch (r : nat) (opts : QueryOptions)
| EvSettle (r : nat) (h : string) (res : CallResult)
| EvHydrate (r : nat).

Definition render_of (e : Event) : nat :=
  match e with
  | EvPrefetch r _ | EvSettle r _ _ | EvHydrate r => r
  end.

Definition step (w : World) (e : Event) : World :=
  match e with
  | EvPrefetch r opts => prefetch r opts w
  | EvSettle r h res => settle r h res w
  | EvHydrate r => (HydrateClient r w).2
  end.

Definition run (tr : list Event) (w : World) : World := foldl step w tr.

(** The events of render scope [r] alone. *)
Definition only (r : nat) (tr : list Event) : list Event :=
  filter (fun e => render_of e = r) tr.

(** The cache render scope [r] works on. *)
Definition view (r : nat) (w : World) : list (string * Query) :=
  match memo w !! r with
  | Some c => match heap w !! c with
              | Some qc => queries qc
              | None => []
              end
  | None => []
  end.


(** A trace with the events of render scope [r] removed. *)
Definition without (r : nat) (tr : list Event) : list Event :=
  filter (fun e => render_of e <> r) tr.

(** What an event does to the cache of its own render scope. *)
Definition local_step (qs : list (string * Query)) (e : Event)
  : list (string * Query) :=
  match e with
  | EvPrefetch _ opts =>
      let h := hashKey (queryKey opts) in
      set_entry h (populate (entry h qs)) qs
  | EvSettle _ h res => queries (settle_entry h res (mkClient qs))
  | EvHydrate _ => qs
  end.

(** Well-formed worlds: memoized instances are allocated, allocated
    instances lie below the allocation counter, no instance is memoized
    for two render scopes, and a cache holds one entry per key. *)
Record wf (w : World) : Prop := mkWf {
  wf_memo : forall r c, memo w !! r = Some c -> is_Some (heap w !! c);
  wf_next : forall c, is_Some (heap w !! c) -> (c < next w)%nat;
  wf_inj : forall r r' c, memo w !! r = Some c -> memo w !! r' = Some c -> r = r';
  wf_keys : forall c qc, heap w !! c = Some qc -> NoDup (queries qc).*1;
}.

(** *** Cache entries *)

Lemma entry_set_entry_eq h q qs : entry h (set_entry h q qs) = Some q.
Proof.
  induction qs as [|[h' q'] qs IH]; simpl.
  - by rewrite bool_decide_eq_true_2.
  - case_bool_decide; simpl.
    + by rewrite bool_decide_eq_true_2.
    + by rewrite bool_decide_eq_false_2.
Qed.

Lemma entry_set_entry_ne h h' q qs :
  h <> h' -> entry h' (set_entry h q qs) = entry h' qs.
Proof.
  intros Hne. induction qs as [|[k q'] qs IH]; simpl.
  - by rewrite bool_decide_eq_false_2.
  - case_bool_decide; simpl.
    + subst k. by rewrite !bool_decide_eq_false_2.
    + case_bool_decide; [done | apply IH].
Qed.

Lemma entry_None_keys h qs : entry h qs = None <-> h ∉ qs.*1.
Proof.
  induction qs as [|[k q] qs IH]; simpl.
  - split; [intros _; apply not_elem_of_nil | done].
  - case_bool_decide; subst; rewrite not_elem_of_cons.
    + split; [done | intros [? _]; done].
    + rewrite IH. split; [by intros ?; split | by intros [_ ?]].
Qed.

Lemma set_entry_keys h q qs k :
  k ∈ (set_entry h q qs).*1 <-> k = h \/ k ∈ qs.*1.
Proof.
  induction qs as [|[h' q'] qs IH]; simpl.
  - rewrite list_elem_of_singleton. split; [by left | intros [?|H]; [done|]].
    by apply elem_of_nil in H.
  - case_bool_decide; subst; simpl; rewrite !elem_of_cons.
    + tauto.
    + rewrite IH. tauto.
Qed.

Lemma set_entry_NoDup h q qs :
  NoDup qs.*1 -> NoDup (set_entry h q qs).*1.
Proof.
  induction qs as [|[h' q'] qs IH]; simpl; intros Hnd.
  - apply NoDup_singleton.
  - apply NoDup_cons in Hnd as [Hnotin Hnd].
    case_bool_decide; subst; simpl; apply NoDup_cons.
    + done.
    + split; [|by apply IH].
      rewrite set_entry_keys. intros [?|?]; [congruence | done].
Qed.

Lemma entry_dehydrate h qc :
  NoDup (queries qc).*1 ->
  entry h (dehydrate qc) =
    match entry h (queries qc) with
    | Some q => if shouldDehydrateQuery q then Some q else None
    | None => None
    end.
Proof.
  unfold dehydrate. destruct qc as [qs]. cbn [queries].
  induction qs as [|[k q] qs IH]; intros Hnd; [done|].
  rewrite fmap_cons in Hnd. apply NoDup_cons in Hnd as [Hnotin Hnd].
  cbn [entry fst]. destruct (decide (shouldDehydrateQuery q = true)) as [Hq|Hq].
  - rewrite filter_cons_True by done. cbn [entry].
    case_bool_decide; [by rewrite Hq | by apply IH].
  - rewrite filter_cons_False by done. rewrite IH by done.
    case_bool_decide; [|done]. subst k.
    cbn [fst] in Hnotin. apply entry_None_keys in Hnotin. rewrite Hnotin.
    by destruct (shouldDehydrateQuery q).
Qed.

(** *** Worlds *)

Lemma wf_init : wf init.
Proof.
  split; simpl.
  - intros r c. by rewrite lookup_empty.
  - intros c [? H]. by rewrite lookup_empty in H.
  - intros r r' c. by rewrite lookup_empty.
  - intros c qc. by rewrite lookup_empty.
Qed.

Lemma getQueryClient_memo r w c :
  memo w !! r = Some c -> getQueryClient r w = (c, w).
Proof. intros H. unfold getQueryClient, cache. by rewrite H. Qed.

Lemma getQueryClient_fresh r w :
  memo w !! r = None ->
  getQueryClient r w =
    (next w, mkWorld (<[next w := mkClient []]> (heap w)) (S (next w))
                     (<[r := next w]> (memo w)) (started w)).
Proof. intros H. unfold getQueryClient, cache. by rewrite H. Qed.

Lemma wf_next_None w : wf w -> heap w !! next w = None.
Proof.
  intros Hwf. destruct (heap w !! next w) eqn:E; [|done].
  assert (next w < next w)%nat by (apply (wf_next _ Hwf); eauto). lia.
Qed.

Lemma getQueryClient_wf r w : wf w -> wf (getQueryClient r w).2.
Proof.
  intros Hwf. destruct (memo w !! r) as [c|] eqn:E.
  - by rewrite (getQueryClient_memo _ _ _ E).
  - rewrite (getQueryClient_fresh _ _ E). simpl.
    pose proof (wf_next_None _ Hwf) as Hnone.
    split; simpl.
    + intros r' c. rewrite lookup_insert. case_decide.
      * intros [= <-]. rewrite lookup_insert_eq. eauto.
      * intros Hm. rewrite lookup_insert. case_decide; [eauto|].
        by apply (wf_memo _ Hwf r').
    + intros c. rewrite lookup_insert. case_decide; [subst; lia|].
      intros Hc. apply (wf_next _ Hwf) in Hc. lia.
    + intros r1 r2 c. rewrite !lookup_insert.
      repeat case_decide; subst; try done.
      * intros [= <-] Hm. apply (wf_memo _ Hwf) in Hm.
        rewrite Hnone in Hm. by destruct Hm.
      * intros Hm [= <-]. apply (wf_memo _ Hwf) in Hm.
        rewrite Hnone in Hm. by destruct Hm.
      * apply (wf_inj _ Hwf).
    + intros c qc. rewrite lookup_insert. case_decide.
      * intros [= <-]. simpl. apply NoDup_nil_2.
      * apply (wf_keys _ Hwf).
Qed.

Lemma getQueryClient_view r r' w :
  wf w -> view r' (getQueryClient r w).2 = view r' w.
Proof.
  intros Hwf. destruct (memo w !! r) as [c|] eqn:E.
  - by rewrite (getQueryClient_memo _ _ _ E).
  - rewrite (getQueryClient_fresh _ _ E). unfold view. simpl.
    pose proof (wf_next_None _ Hwf) as Hnone.
    rewrite lookup_insert. case_decide.
    + subst r'. rewrite E, lookup_insert_eq. done.
    + destruct (memo w !! r') as [c|] eqn:E'; [|done].
      rewrite lookup_insert. case_decide; [|done].
      subst c. apply (wf_memo _ Hwf) in E'. rewrite Hnone in E'. by destruct E'.
Qed.

Lemma getQueryClient_lookup r w :
  wf w ->
  memo (getQueryClient r w).2 !! r = Some (getQueryClient r w).1 /\
  exists qc, heap (getQueryClient r w).2 !! (getQueryClient r w).1 = Some qc /\
             queries qc = view r w.
Proof.
  intros Hwf. destruct (memo w !! r) as [c|] eqn:E.
  - rewrite (getQueryClient_memo _ _ _ E). simpl. split; [done|].
    unfold view. rewrite E.
    destruct (wf_memo _ Hwf _ _ E) as [qc Hqc]. rewrite Hqc. eauto.
  - rewrite (getQueryClient_fresh _ _ E). simpl.
    rewrite !lookup_insert_eq. split; [done|].
    exists (mkClient []). unfold view. by rewrite E.
Qed.

Lemma on_client_wf c f w :
  wf w ->
  (forall qc, NoDup (queries qc).*1 -> NoDup (queries (f qc)).*1) ->
  wf (on_client c f w).
Proof.
  intros Hwf Hf. unfold on_client.
  destruct (heap w !! c) as [qc|] eqn:E; [|done].
  split; simpl.
  - intros r c' Hm. rewrite lookup_insert. case_decide; [eauto|].
    by apply (wf_memo _ Hwf r).
  - intros c'. rewrite lookup_insert. case_decide.
    + subst c'. intros _. apply (wf_next _ Hwf). eauto.
    + apply (wf_next _ Hwf).
  - apply (wf_inj _ Hwf).
  - intros c' qc'. rewrite lookup_insert. case_decide.
    + intros [= <-]. apply Hf. by apply (wf_keys _ Hwf c).
    + apply (wf_keys _ Hwf).
Qed.

Lemma on_client_view_same r c f w :
  wf w -> memo w !! r = Some c ->
  view r (on_client c f w) = queries (f (mkClient (view r w))).
Proof.
  intros Hwf Hm. unfold on_client, view.
  destruct (wf_memo _ Hwf _ _ Hm) as [[qs] Hqc]. rewrite Hqc. simpl.
  by rewrite Hm, Hqc, lookup_insert_eq.
Qed.

Lemma on_client_view_other r r' c f w :
  wf w -> memo w !! r = Some c -> r' <> r ->
  view r' (on_client c f w) = view r' w.
Proof.
  intros Hwf Hm Hne. unfold on_client, view.
  destruct (heap w !! c) as [qc|] eqn:E; [|done]. simpl.
  destruct (memo w !! r') as [c'|] eqn:E'; [|done].
  rewrite lookup_insert. case_decide; [|done].
  subst c'. destruct Hne. by apply (wf_inj _ Hwf r' r c).
Qed.

Lemma wf_started w l :
  wf w -> wf (mkWorld (heap w) (next w) (memo w) l).
Proof. intros [H1 H2 H3 H4]. by split. Qed.

Lemma settle_entry_NoDup h res qc :
  NoDup (queries qc).*1 -> NoDup (queries (settle_entry h res qc)).*1.
Proof.
  intros Hnd. unfold settle_entry.
  destruct (entry h (queries qc)) as [q|]; [|done].
  destruct (q_fetching q); [|done]. simpl. by apply set_entry_NoDup.
Qed.

Lemma run_routine_wf which c opts w :
  wf w -> wf (run_routine which c opts w).
Proof.
  intros Hwf. unfold run_routine. apply wf_started, on_client_wf; [done|].
  intros qc Hnd. simpl. by apply set_entry_NoDup.
Qed.

Lemma prefetch_wf r opts w : wf w -> wf (prefetch r opts w).
Proof.
  intros Hwf. unfold prefetch.
  pose proof (getQueryClient_wf r w Hwf) as Hwf1.
  destruct (getQueryClient r w) as [c w1]. simpl in Hwf1.
  destruct (strict_eq_str _ _); by apply run_routine_wf.
Qed.

Lemma settle_wf r h res w : wf w -> wf (settle r h res w).
Proof.
  intros Hwf. unfold settle. destruct (memo w !! r); [|done].
  apply on_client_wf; [done|]. intros qc. apply settle_entry_NoDup.
Qed.

Lemma HydrateClient_world r w :
  (HydrateClient r w).2 = (getQueryClient r w).2.
Proof. unfold HydrateClient. by destruct (getQueryClient r w). Qed.

Lemma step_wf w e : wf w -> wf (step w e).
Proof.
  intros Hwf. destruct e as [r opts|r h res|r]; simpl.
  - by apply prefetch_wf.
  - by apply settle_wf.
  - rewrite HydrateClient_world. by apply getQueryClient_wf.
Qed.

Lemma run_wf tr w : wf w -> wf (run tr w).
Proof.
  revert w. induction tr as [|e tr IH]; intros w Hwf; [done|].
  simpl. apply IH. by apply step_wf.
Qed.

Lemma view_started r w l :
  view r (mkWorld (heap w) (next w) (memo w) l) = view r w.
Proof. done. Qed.

Lemma run_routine_view_same which r c opts w :
  wf w -> memo w !! r = Some c ->
  view r (run_routine which c opts w) =
    local_step (view r w) (EvPrefetch r opts).
Proof.
  intros Hwf Hm. unfold run_routine. cbv zeta.
  by rewrite view_started, (on_client_view_same r c _ w Hwf Hm).
Qed.

Lemma run_routine_view_other which r r' c opts w :
  wf w -> memo w !! r = Some c -> r' <> r ->
  view r' (run_routine which c opts w) = view r' w.
Proof.
  intros Hwf Hm Hne. unfold run_routine. cbv zeta.
  by rewrite view_started, (on_client_view_other r r' c _ w Hwf Hm Hne).
Qed.

Lemma prefetch_view r opts w :
  wf w ->
  view r (prefetch r opts w) = local_step (view r w) (EvPrefetch r opts).
Proof.
  intros Hwf. unfold prefetch.
  pose proof (getQueryClient_wf r w Hwf) as Hwf1.
  pose proof (getQueryClient_view r r w Hwf) as Hv.
  destruct (getQueryClient_lookup r w Hwf) as [Hm _].
  destruct (getQueryClient r w) as [c w1]. simpl in *.
  destruct (strict_eq_str _ _);
    unfold prefetchInfiniteQuery, prefetchQuery;
    by rewrite (run_routine_view_same _ r c opts w1 Hwf1 Hm), Hv.
Qed.

Lemma prefetch_view_other r r' opts w :
  wf w -> r' <> r -> view r' (prefetch r opts w) = view r' w.
Proof.
  intros Hwf Hne. unfold prefetch.
  pose proof (getQueryClient_wf r w Hwf) as Hwf1.
  pose proof (getQueryClient_view r r' w Hwf) as Hv.
  destruct (getQueryClient_lookup r w Hwf) as [Hm _].
  destruct (getQueryClient r w) as [c w1]. simpl in *.
  destruct (strict_eq_str _ _);
    unfold prefetchInfiniteQuery, prefetchQuery;
    by rewrite (run_routine_view_other _ r r' c opts w1 Hwf1 Hm Hne), Hv.
Qed.

Lemma settle_view r h res w :
  wf w ->
  view r (settle r h res w) = local_step (view r w) (EvSettle r h res).
Proof.
  intros Hwf. unfold settle. destruct (memo w !! r) as [c|] eqn:E.
  - by rewrite (on_client_view_same r c _ w Hwf E).
  - unfold view. by rewrite E.
Qed.

Lemma settle_view_other r r' h res w :
  wf w -> r' <> r -> view r' (settle r h res w) = view r' w.
Proof.
  intros Hwf Hne. unfold settle. destruct (memo w !! r) as [c|] eqn:E; [|done].
  by apply (on_client_view_other r r' c).
Qed.

Lemma step_view_same w e :
  wf w -> view (render_of e) (step w e) = local_step (view (render_of e) w) e.
Proof.
  intros Hwf. destruct e as [r opts|r h res|r]; simpl render_of; simpl step.
  - by apply prefetch_view.
  - by apply settle_view.
  - rewrite HydrateClient_world. by apply getQueryClient_view.
Qed.

Lemma step_view_other r w e :
  wf w -> render_of e <> r -> view r (step w e) = view r w.
Proof.
  intros Hwf Hne. destruct e as [r0 opts|r0 h res|r0]; simpl in *.
  - by apply prefetch_view_other.
  - by apply settle_view_other.
  - rewrite HydrateClient_world. by apply getQueryClient_view.
Qed.

(** The cache a render scope works on is determined by the events of
    that scope alone. *)
Lemma run_view r tr w :
  wf w -> view r (run tr w) = foldl local_step (view r w) (only r tr).
Proof.
  revert w. induction tr as [|e tr IH]; intros w Hwf; [done|].
  simpl. rewrite (IH _ (step_wf w e Hwf)). unfold only.
  destruct (decide (render_of e = r)) as [<-|Hne].
  - rewrite filter_cons_True by done. simpl. by rewrite step_view_same.
  - rewrite filter_cons_False by done. by rewrite step_view_other.
Qed.

Lemma only_idemp r tr : only r (only r tr) = only r tr.
Proof.
  unfold only. induction tr as [|e tr IH]; [done|].
  destruct (decide (render_of e = r)).
  - rewrite !filter_cons_True by done. by rewrite IH.
  - by rewrite filter_cons_False by done.
Qed.

Lemma HydrateClient_snapshot r w :
  wf w -> (HydrateClient r w).1 = dehydrate (mkClient (view r w)).
Proof.
  intros Hwf. unfold HydrateClient.
  destruct (getQueryClient_lookup r w Hwf) as [_ (qc & Hqc & Hv)].
  destruct (getQueryClient r w) as [c w1]. simpl in *.
  rewrite Hqc. destruct qc as [qs]. simpl in Hv. by subst qs.
Qed.

Lemma view_NoDup r w : wf w -> NoDup (view r w).*1.
Proof.
  intros Hwf. unfold view. destruct (memo w !! r) as [c|]; [|apply NoDup_nil_2].
  destruct (heap w !! c) as [qc|] eqn:E; [|apply NoDup_nil_2].
  by apply (wf_keys _ Hwf c).
Qed.

Lemma only_without r r' tr : r <> r' -> only r (without r' tr) = only r tr.
Proof.
  intros Hne. unfold only, without. induction tr as [|e tr IH]; [done|].
  destruct (decide (render_of e = r)) as [He|He].
  - rewrite (filter_cons_True (fun e => render_of e <> r')) by congruence.
    rewrite !filter_cons_True by done. by rewrite IH.
  - rewrite (filter_cons_False (fun e => render_of e = r) e tr) by done.
    destruct (decide (render_of e = r')) as [He'|He'].
    + by rewrite filter_cons_False by (intros ?; done).
    + rewrite filter_cons_True by done. by rewrite filter_cons_False by done.
Qed.

(** Once a render scope has its instance, it keeps it. *)
Lemma getQueryClient_memo_stable r r' c w :
  memo w !! r' = Some c -> memo (getQueryClient r w).2 !! r' = Some c.
Proof.
  intros Hm. destruct (memo w !! r) as [c0|] eqn:E.
  - by rewrite (getQueryClient_memo _ _ _ E).
  - rewrite (getQueryClient_fresh _ _ E). simpl.
    rewrite lookup_insert_ne; [done | congruence].
Qed.

Lemma on_client_memo c f w : memo (on_client c f w) = memo w.
Proof. unfold on_client. by destruct (heap w !! c). Qed.

Lemma step_memo_stable r c w e :
  memo w !! r = Some c -> memo (step w e) !! r = Some c.
Proof.
  intros Hm. destruct e as [r0 opts|r0 h res|r0]; simpl.
  - unfold prefetch.
    pose proof (getQueryClient_memo_stable r0 r c w Hm) as Hm1.
    destruct (getQueryClient r0 w) as [c0 w1]. simpl in Hm1.
    destruct (strict_eq_str _ _);
      unfold prefetchInfiniteQuery, prefetchQuery, run_routine; simpl;
      by rewrite on_client_memo.
  - unfold settle. destruct (memo w !! r0); [|done]. by rewrite on_client_memo.
  - rewrite HydrateClient_world. by apply getQueryClient_memo_stable.
Qed.

Lemma run_memo_stable r c tr w :
  memo w !! r = Some c -> memo (run tr w) !! r = Some c.
Proof.
  revert w. induction tr as [|e tr IH]; intros w Hm; [done|].
  simpl. apply IH. by apply step_memo_stable.
Qed.

(** *** The render-scoped query client *)

(** C1. Whatever the renders did before ([tr1]) and between the two calls
    ([tr2]), the instance [getQueryClient] returns in render scope [r1]
    differs from the one it returns in another scope [r2], while [r1]
    itself is given its own instance again; and what [r2] sees of its
    cache, and what it serializes, after any interleaving [tr] of the
    renders is what it sees with every event of [r1] removed. *)
Theorem render_scoped_query_client (tr1 tr2 : list Event) (r1 r2 : nat) :
  r1 <> r2 ->
  let a := getQueryClient r1 (run tr1 init) in
  let b := getQueryClient r2 (run tr2 a.2) in
  a.1 <> b.1 /\
  (getQueryClient r1 b.2).1 = a.1 /\
  forall tr,
    view r2 (run tr init) = view r2 (run (without r1 tr) init) /\
    (HydrateClient r2 (run tr init)).1 =
      (HydrateClient r2 (run (without r1 tr) init)).1.
Proof.
  intros Hne a b.
  assert (wf (run tr1 init)) as Hwf0 by apply run_wf, wf_init.
  destruct (getQueryClient_lookup r1 _ Hwf0) as [Ha _]. fold a in Ha.
  assert (wf a.2) as Hwfa by by apply getQueryClient_wf.
  assert (wf (run tr2 a.2)) as Hwf1 by by apply run_wf.
  pose proof (run_memo_stable r1 _ tr2 _ Ha) as Ha1.
  destruct (getQueryClient_lookup r2 _ Hwf1) as [Hb _]. fold b in Hb.
  assert (wf b.2) as Hwfb by by apply getQueryClient_wf.
  pose proof (getQueryClient_memo_stable r2 r1 _ _ Ha1) as Ha2. fold b in Ha2.
  split; [|split].
  - intros Heq. apply Hne. rewrite <- Heq in Hb.
    by apply (wf_inj _ Hwfb r1 r2 a.1).
  - by rewrite (getQueryClient_memo _ _ _ Ha2).
  - intros tr.
    assert (view r2 (run tr init) = view r2 (run (without r1 tr) init)) as Hv.
    { rewrite !run_view by apply wf_init. by rewrite only_without. }
    split; [done|].
    rewrite !HydrateClient_snapshot by apply run_wf, wf_init. by rewrite Hv.
Qed.

(** *** Serialization *)

Lemma HydrateClient_entry r w h :
  wf w ->
  entry h (HydrateClient r w).1 =
    match entry h (view r w) with
    | Some q => if shouldDehydrateQuery q then Some q else None
    | None => None
    end.
Proof.
  intros Hwf. rewrite HydrateClient_snapshot by done.
  apply entry_dehydrate. simpl. by apply view_NoDup.
Qed.

Lemma HydrateClient_view r r' w :
  wf w -> view r' (HydrateClient r w).2 = view r' w.
Proof. intros Hwf. rewrite HydrateClient_world. by apply getQueryClient_view. Qed.

Lemma view_init r : view r init = [].
Proof. unfold view, init. simpl. by rewrite lookup_empty. Qed.

(** Serializing right after [prefetch], whatever the filter and the key
    hash: the entry is not in the snapshot in state [success] or [error]. *)
Lemma prefetch_then_hydrate_unsettled r opts :
  ~ exists q,
      entry (hashKey (queryKey opts))
            (HydrateClient r (prefetch r opts init)).1 = Some q /\
      (q_status q = success \/ q_status q = error).
Proof.
  intros (q & Hq & Hst).
  rewrite HydrateClient_entry in Hq by apply prefetch_wf, wf_init.
  rewrite prefetch_view, view_init in Hq by apply wf_init. simpl in Hq.
  rewrite bool_decide_eq_true_2 in Hq by done.
  destruct (shouldDehydrateQuery _); [|done].
  injection Hq as <-. simpl in Hst. by destruct Hst.
Qed.

(** C2, amended. For an entry that [prefetch] creates in the cache of
    render scope [r]: serialization right after [prefetch] carries the
    entry as [pending] or, when the filter does not admit it, leaves it
    out; serialization changes nothing in the cache, so it settles no
    fetch; and once the fetch has settled with [res], serialization
    carries the entry as [success] or [error] according to [res], again
    when the filter admits it. *)
Theorem snapshot_reflects_cache (tr : list Event) (r : nat)
    (opts : QueryOptions) :
  let h := hashKey (queryKey opts) in
  let w := run tr init in
  entry h (view r w) = None ->
  let w1 := prefetch r opts w in
  let fresh := mkQuery pending true None None in
  entry h (HydrateClient r w1).1 =
    (if shouldDehydrateQuery fresh then Some fresh else None) /\
  view r (HydrateClient r w1).2 = view r w1 /\
  forall res,
    let after := settled res fresh in
    entry h (HydrateClient r (settle r h res w1)).1 =
      (if shouldDehydrateQuery after then Some after else None) /\
    q_status after = match res with Success _ => success | Failure _ => error end.
Proof.
  intros h w Hnone w1 fresh.
  assert (wf w) as Hwf by apply run_wf, wf_init.
  assert (wf w1) as Hwf1 by by apply prefetch_wf.
  assert (entry h (view r w1) = Some fresh) as Hfresh.
  { unfold w1. rewrite prefetch_view by done. simpl. fold h.
    rewrite Hnone. apply entry_set_entry_eq. }
  split; [|split].
  - rewrite HydrateClient_entry by done. by rewrite Hfresh.
  - by apply HydrateClient_view.
  - intros res after. split; [|by destruct res].
    rewrite HydrateClient_entry by by apply settle_wf.
    rewrite settle_view by done. simpl. unfold settle_entry. simpl.
    rewrite Hfresh. simpl. by rewrite entry_set_entry_eq.
Qed.

(** *** Dispatch *)





(** *** More on the bridge *)

Set Warnings "-clear-no-such-hyp".

Lemma on_client_next c f w : next (on_client c f w) = next w.
Proof. unfold on_client. by destruct (heap w !! c). Qed.

Lemma getQueryClient_alloc r w :
  next w = size (memo w) ->
  next (getQueryClient r w).2 = size (memo (getQueryClient r w).2) /\
  dom (memo (getQueryClient r w).2) ⊆ dom (memo w) ∪ {[r]}.
Proof.
  intros Hn. destruct (memo w !! r) as [c|] eqn:E.
  - rewrite (getQueryClient_memo _ _ _ E). simpl. split; [done | set_solver].
  - rewrite (getQueryClient_fresh _ _ E). simpl. split.
    + rewrite map_size_insert_None by done. by rewrite Hn.
    + rewrite dom_insert_L. set_solver.
Qed.

Lemma step_alloc w e :
  next w = size (memo w) ->
  next (step w e) = size (memo (step w e)) /\
  dom (memo (step w e)) ⊆ dom (memo w) ∪ {[render_of e]}.
Proof.
  intros Hn. destruct e as [r opts|r h res|r]; simpl.
  - unfold prefetch. pose proof (getQueryClient_alloc r w Hn) as Ha.
    destruct (getQueryClient r w) as [c w1]. simpl in Ha.
    destruct (strict_eq_str _ _);
      unfold prefetchInfiniteQuery, prefetchQuery, run_routine; simpl;
      by rewrite on_client_next, on_client_memo.
  - unfold settle. destruct (memo w !! r).
    + rewrite on_client_next, on_client_memo. split; [done | set_solver].
    + split; [done | set_solver].
  - rewrite HydrateClient_world. by apply getQueryClient_alloc.
Qed.

Lemma run_alloc tr : forall w,
  next w = size (memo w) ->
  next (run tr w) = size (memo (run tr w)) /\
  dom (memo (run tr w)) ⊆ dom (memo w) ∪ list_to_set (render_of <$> tr).
Proof.
  induction tr as [|e tr IH]; intros w Hn; simpl.
  - split; [done | set_solver].
  - destruct (step_alloc w e Hn) as [Hn1 Hd1].
    destruct (IH _ Hn1) as [Hn2 Hd2]. split; [done|]. set_solver.
Qed.

(** However the renders interleave and however often each calls
    [prefetch] or [HydrateClient], no more query clients are allocated
    than there are render scopes: a render never gets a second one. *)
Theorem one_client_per_render (tr : list Event) :
  (next (run tr init) <= size (list_to_set (render_of <$> tr) : gset nat))%nat.
Proof.
  destruct (run_alloc tr init) as [Hn Hd]; [done|].
  rewrite Hn, <- (size_dom (D := gset nat)). apply subseteq_size.
  unfold init in Hd at 2. simpl in Hd. set_solver.
Qed.

Lemma populate_idemp o : populate (Some (populate o)) = populate o.
Proof.
  destruct o as [q|]; [|done]. simpl.
  destruct (q_fetching q) eqn:Ef; simpl; [by rewrite Ef|].
  destruct (isStale q) eqn:Es; simpl; [done|]. by rewrite Ef, Es.
Qed.

Lemma set_entry_twice h q q' qs :
  set_entry h q (set_entry h q' qs) = set_entry h q qs.
Proof.
  induction qs as [|[k q0] qs IH]; simpl.
  - by rewrite bool_decide_eq_true_2.
  - case_bool_decide; simpl.
    + by rewrite bool_decide_eq_true_2.
    + rewrite bool_decide_eq_false_2 by done. by rewrite IH.
Qed.

(** In any reachable state, [prefetch] touches one entry of one cache:
    the entries of other keys and the caches of other render scopes are
    as before.  Prefetching the same key again right away changes nothing
    more in the cache: the fetch in flight is not started twice. *)
Theorem prefetch_frame_and_repeat (tr : list Event) (r : nat)
    (opts : QueryOptions) :
  let w := run tr init in
  (forall h', h' <> hashKey (queryKey opts) ->
     entry h' (view r (prefetch r opts w)) = entry h' (view r w)) /\
  (forall r', r' <> r -> view r' (prefetch r opts w) = view r' w) /\
  view r (prefetch r opts (prefetch r opts w)) = view r (prefetch r opts w).
Proof.
  intros w. assert (wf w) as Hwf by apply run_wf, wf_init.
  split; [|split].
  - intros h' Hne. rewrite prefetch_view by done. simpl.
    by apply entry_set_entry_ne.
  - intros r' Hne. by apply prefetch_view_other.
  - rewrite (prefetch_view r opts (prefetch r opts w)) by by apply prefetch_wf.
    rewrite prefetch_view by done. simpl.
    by rewrite entry_set_entry_eq, populate_idemp, set_entry_twice.
Qed.

(** In any reachable state a cache holds at most one entry per key, and
    the snapshot [HydrateClient] takes is a part of the cache in cache
    order, again with at most one entry per key. *)
Theorem snapshot_part_of_cache (tr : list Event) (r : nat) :
  let w := run tr init in
  NoDup (view r w).*1 /\
  (HydrateClient r w).1 `sublist_of` view r w /\
  NoDup (HydrateClient r w).1.*1.
Proof.
  intros w. assert (wf w) as Hwf by apply run_wf, wf_init.
  pose proof (view_NoDup r w Hwf) as Hnd.
  assert ((HydrateClient r w).1 `sublist_of` view r w) as Hsub.
  { rewrite HydrateClient_snapshot by done. unfold dehydrate. simpl.
    apply sublist_filter. }
  split; [done|]. split; [done|].
  eapply sublist_NoDup; [exact Hnd|]. by apply fmap_sublist.
Qed.

End Bridge.

(** *** The bridge on the health page *)

Lemma render_scoped_query_client_witness :
  0%nat <> 1%nat /\
  let tr1 := [EvPrefetch 0 healthCheckOptions] in
  let tr2 := [EvPrefetch 1 healthCheckOptions;
              EvSettle 0 "health.check" (Success (VStr "ok"))] in
  let a := getQueryClient 0 (run pathHash shouldDehydratePendingToo staleTimeZero tr1 init) in
  let b := getQueryClient 1 (run pathHash shouldDehydratePendingToo staleTimeZero tr2 a.2) in
  a.1 <> b.1 /\
  (getQueryClient 0 b.2).1 = a.1 /\
  forall tr,
    view 1 (run pathHash shouldDehydratePendingToo staleTimeZero tr init) =
      view 1 (run pathHash shouldDehydratePendingToo staleTimeZero (without 0 tr) init) /\
    (HydrateClient shouldDehydratePendingToo 1
       (run pathHash shouldDehydratePendingToo staleTimeZero tr init)).1 =
    (HydrateClient shouldDehydratePendingToo 1
       (run pathHash shouldDehydratePendingToo staleTimeZero (without 0 tr) init)).1.
Proof.
  split; [lia|].
  apply (render_scoped_query_client pathHash shouldDehydratePendingToo
           staleTimeZero
           [EvPrefetch 0 healthCheckOptions]
           [EvPrefetch 1 healthCheckOptions;
            EvSettle 0 "health.check" (Success (VStr "ok"))] 0 1).
  lia.
Defined.

(** C2 as stated fails on the health page's own sequence, [prefetch] of
    [health.check] followed by [HydrateClient]: with the default filter the
    snapshot is empty, with a filter admitting pending entries it carries
    the entry as [pending]; in neither is the entry [success] or [error]. *)
Lemma prefetch_then_hydrate_counterexample :
  let w := prefetch pathHash staleTimeZero 0 healthCheckOptions init in
  (HydrateClient defaultShouldDehydrateQuery 0 w).1 = [] /\
  (HydrateClient shouldDehydratePendingToo 0 w).1 =
    [("health.check", mkQuery pending true None None)] /\
  (~ exists q,
       entry (pathHash (queryKey healthCheckOptions))
             (HydrateClient defaultShouldDehydrateQuery 0 w).1 = Some q /\
       (q_status q = success \/ q_status q = error)) /\
  (~ exists q,
       entry (pathHash (queryKey healthCheckOptions))
             (HydrateClient shouldDehydratePendingToo 0 w).1 = Some q /\
       (q_status q = success \/ q_status q = error)).
Proof.
  split; [reflexivity|]. split; [reflexivity|].
  split; apply prefetch_then_hydrate_unsettled.
Qed.

Lemma snapshot_reflects_cache_witness :
  entry (pathHash (queryKey healthCheckOptions))
        (view 0 (run pathHash shouldDehydratePendingToo staleTimeZero [] init)) = None /\
  let h := pathHash (queryKey healthCheckOptions) in
  let w := run pathHash shouldDehydratePendingToo staleTimeZero [] init in
  let w1 := prefetch pathHash staleTimeZero 0 healthCheckOptions w in
  let fresh := mkQuery pending true None None in
  entry h (HydrateClient shouldDehydratePendingToo 0 w1).1 =
    (if shouldDehydratePendingToo fresh then Some fresh else None) /\
  view 0 (HydrateClient shouldDehydratePendingToo 0 w1).2 = view 0 w1 /\
  forall res,
    let after := settled res fresh in
    entry h (HydrateClient shouldDehydratePendingToo 0 (settle 0 h res w1)).1 =
      (if shouldDehydratePendingToo after then Some after else None) /\
    q_status after = match res with Success _ => success | Failure _ => error end.
Proof.
  split; [reflexivity|].
  apply (snapshot_reflects_cache pathHash shouldDehydratePendingToo
           staleTimeZero [] 0 healthCheckOptions).
  reflexivity.
Defined.

(** ** The registry *)

Lemma appRouter_procedures st :
  appRouter st =
    <["health.check" := health_check st]>
      (<["health.ping" := health_ping]>
         (<["health.log" := health_log]> ∅)).
Proof. reflexivity. Qed.

Lemma appRouter_registered st path :
  appRouter st !! path = None <->
  path ∉ ["health.check"; "health.ping"; "health.log"].
Proof.
  rewrite appRouter_procedures, !not_elem_of_cons.
  rewrite !lookup_insert_None, lookup_empty. split.
  - intros [[[_ H1] H2] H3]. repeat split; try congruence. apply not_elem_of_nil.
  - intros (H1 & H2 & H3 & _). repeat split; congruence.
Qed.

(** C7. Invoking a dotted path that is not in the assembled router fails
    with a [NotFoundError] for that path; nothing runs and the environment
    is left as it was. *)
Theorem unregistered_path_not_found (st : Z) (path : string) (raw : value)
    (e : Env) :
  appRouter st !! path = None ->
  invoke (appRouter st) path raw e = (Failure (NotFoundError path), e).
Proof. intros H. unfold invoke. by rewrite H. Qed.

Lemma unregistered_path_not_found_witness :
  appRouter 0 !! "health.restart" = None /\
  invoke (appRouter 0) "health.restart" VUndefined sample_env =
    (Failure (NotFoundError "health.restart"), sample_env).
Proof.
  split; [reflexivity|].
  apply (unregistered_path_not_found 0 "health.restart"). reflexivity.
Defined.

(** ** health.check *)

Lemma uptime_at_nonneg st now : (st <= now)%Z -> (0 <= uptime_at st now)%Z.
Proof. intros H. unfold uptime_at. apply Z.div_pos; lia. Qed.

Lemma uptime_at_mono st t1 t2 :
  (t1 <= t2)%Z -> (uptime_at st t1 <= uptime_at st t2)%Z.
Proof. intros H. unfold uptime_at. apply Z.div_le_mono; lia. Qed.

Lemma health_check_call st raw e :
  invoke (appRouter st) "health.check" raw e =
    (Success (VObj [ ("status", VStr "ok");
                     ("timestamp", VDate (clock e (reads e)));
                     ("version", VStr (nullish_str (npm_package_version e) "0.0.1"));
                     ("uptime", VNum (uptime_at st (call_time e))) ]),
     mkEnv (clock e) (S (S (reads e))) (npm_package_version e) (console e)
           (S (resolver_runs e))).
Proof. reflexivity. Qed.

(** C8. Every call to [health.check] whose clock reading is not before the
    reading taken at module load returns an object with [status] equal to
    ["ok"], a string [version] and an integer [uptime >= 0]. *)
Theorem health_check_shape (st : Z) (raw : value) (e : Env) :
  (st <= call_time e)%Z ->
  exists data e',
    invoke (appRouter st) "health.check" raw e = (Success data, e') /\
    get_prop data "status" = VStr "ok" /\
    (exists v, get_prop data "version" = VStr v) /\
    (exists u, get_prop data "uptime" = VNum u /\ (0 <= u)%Z).
Proof.
  intros Hle. eexists _, _. split; [apply health_check_call|].
  split; [reflexivity|]. split; [by eexists|].
  eexists. split; [reflexivity|]. by apply uptime_at_nonneg.
Qed.

Lemma health_check_shape_witness :
  let e := sample_env in
  ((load_health e).1 <= call_time (load_health e).2)%Z /\
  exists data e',
    invoke (appRouter (load_health e).1) "health.check" VUndefined (load_health e).2
      = (Success data, e') /\
    get_prop data "status" = VStr "ok" /\
    (exists v, get_prop data "version" = VStr v) /\
    (exists u, get_prop data "uptime" = VNum u /\ (0 <= u)%Z).
Proof.
  intros e. split; [vm_compute; discriminate|].
  apply (health_check_shape (load_health e).1 VUndefined (load_health e).2).
  vm_compute; discriminate.
Defined.

Lemma healthCheckSchema_status_options :
  forall s, s ∈ ["ok"; "degraded"; "error"] ->
  forall t v u,
    let data := VObj [ ("status", VStr s); ("timestamp", VDate t);
                       ("version", VStr v); ("uptime", VNum u) ] in
    safeParse healthCheckSchema data = Parsed data.
Proof.
  intros s Hs t v u. unfold safeParse. simpl. unfold Zod.check. simpl.
  by rewrite bool_decide_eq_true_2.
Qed.

(** C9. The declared contract [healthCheckSchema] accepts the status
    values ["ok"], ["degraded"] and ["error"], yet the [check] handler
    returns ["ok"] on every call; ["degraded"] and ["error"] are never
    returned. *)
Theorem health_check_status_always_ok (st : Z) (raw : value) (e : Env) :
  (forall t v u,
     let report := fun s => VObj [ ("status", VStr s); ("timestamp", VDate t);
                                   ("version", VStr v); ("uptime", VNum u) ] in
     safeParse healthCheckSchema (report "ok") = Parsed (report "ok") /\
     safeParse healthCheckSchema (report "degraded") = Parsed (report "degraded") /\
     safeParse healthCheckSchema (report "error") = Parsed (report "error")) /\
  exists data e',
    invoke (appRouter st) "health.check" raw e = (Success data, e') /\
    get_prop data "status" = VStr "ok" /\
    get_prop data "status" <> VStr "degraded" /\
    get_prop data "status" <> VStr "error".
Proof.
  split.
  - intros t v u report. by repeat split.
  - eexists _, _. split; [apply health_check_call|]. by repeat split.
Qed.

(** C10. With [startTime] fixed at module load, the uptime [health.check]
    reports does not decrease from a call at clock reading [t1] to a call
    at a later reading [t2]. *)
Theorem health_check_uptime_monotone (st : Z) (raw1 raw2 : value)
    (e1 e2 : Env) :
  (st <= call_time e1)%Z ->
  (call_time e1 <= call_time e2)%Z ->
  exists d1 o1 d2 o2 u1 u2,
    invoke (appRouter st) "health.check" raw1 e1 = (Success d1, o1) /\
    invoke (appRouter st) "health.check" raw2 e2 = (Success d2, o2) /\
    get_prop d1 "uptime" = VNum u1 /\
    get_prop d2 "uptime" = VNum u2 /\
    u1 = ((call_time e1 - st) / 1000)%Z /\
    u2 = ((call_time e2 - st) / 1000)%Z /\
    (u1 <= u2)%Z.
Proof.
  intros _ Hle. eexists _, _, _, _, _, _.
  split; [apply health_check_call|]. split; [apply health_check_call|].
  split; [reflexivity|]. split; [reflexivity|].
  split; [reflexivity|]. split; [reflexivity|].
  by apply uptime_at_mono.
Qed.

Lemma health_check_uptime_monotone_witness :
  let st := (load_health sample_env).1 in
  let e1 := (load_health sample_env).2 in
  let e2 := (invoke (appRouter st) "health.check" VUndefined e1).2 in
  (st <= call_time e1)%Z /\
  (call_time e1 <= call_time e2)%Z /\
  exists d1 o1 d2 o2 u1 u2,
    invoke (appRouter st) "health.check" VUndefined e1 = (Success d1, o1) /\
    invoke (appRouter st) "health.check" VUndefined e2 = (Success d2, o2) /\
    get_prop d1 "uptime" = VNum u1 /\
    get_prop d2 "uptime" = VNum u2 /\
    u1 = ((call_time e1 - st) / 1000)%Z /\
    u2 = ((call_time e2 - st) / 1000)%Z /\
    (u1 <= u2)%Z.
Proof.
  intros st e1 e2.
  split; [vm_compute; discriminate|]. split; [vm_compute; discriminate|].
  apply (health_check_uptime_monotone st VUndefined VUndefined e1 e2);
    vm_compute; discriminate.
Defined.

(** ** health.ping and health.log *)

Lemma pingInputSchema_parse raw :
  safeParse pingInputSchema raw =
    match raw with
    | VObj _ | VDate _ =>
        match get_prop raw "echo" with
        | VUndefined =>
            Parsed (VObj (if has_prop raw "echo" then [("echo", VUndefined)] else []))
        | VStr s => Parsed (VObj [("echo", VStr s)])
        | _ => Invalid [mkIssue ["echo"] ExpString]
        end
    | _ => Invalid [mkIssue [] ExpObject]
    end.
Proof.
  destruct raw as [| | | | |ms|items|fields]; try reflexivity.
  unfold safeParse, pingInputSchema. cbn [parse_at app].
  destruct (get_prop (VObj fields) "echo"); try reflexivity.
  cbn [merge_field]. by destruct (has_prop _ _).
Qed.

Lemma valid_ping_input_parsed raw :
  valid_ping_input raw ->
  exists out, safeParse pingInputSchema raw = Parsed out /\
              echo (asPingInput out) = echo (asPingInput raw).
Proof.
  intros (fields & -> & Hecho). rewrite pingInputSchema_parse.
  unfold asPingInput. destruct Hecho as [Hu | [s Hs]].
  - rewrite Hu. destruct (has_prop (VObj fields) "echo"); by eexists.
  - rewrite Hs. by eexists.
Qed.

(** C5 as stated fails: [health.ping] called with no input does not
    return [{message: "pong", echo: undefined}]; it fails validation. *)
Lemma health_ping_no_input_counterexample :
  invoke (appRouter 0) "health.ping" VUndefined sample_env =
    (Failure (ValidationError [mkIssue [] ExpObject]), sample_env) /\
  ~ exists e',
      invoke (appRouter 0) "health.ping" VUndefined sample_env =
        (Success (VObj [("message", VStr "pong"); ("echo", VUndefined)]), e').
Proof.
  assert (invoke (appRouter 0) "health.ping" VUndefined sample_env =
            (Failure (ValidationError [mkIssue [] ExpObject]), sample_env))
    as H by reflexivity.
  split; [done|]. intros [e' He']. rewrite H in He'. discriminate.
Qed.

(** C5, amended. [health.ping] called with [{echo: s}], for instance
    [{echo: "hi"}], returns [{message: "pong", echo: s}]; called with the
    empty object it returns [{message: "pong", echo: undefined}]; called
    with no input at all it fails validation at the root, an object being
    required, and the handler does not run. *)
Theorem health_ping_results (st : Z) (e : Env) :
  (forall s,
     invoke (appRouter st) "health.ping" (VObj [("echo", VStr s)]) e =
       (Success (VObj [("message", VStr "pong"); ("echo", VStr s)]), count_run e)) /\
  invoke (appRouter st) "health.ping" (VObj [("echo", VStr "hi")]) e =
    (Success (VObj [("message", VStr "pong"); ("echo", VStr "hi")]), count_run e) /\
  invoke (appRouter st) "health.ping" (VObj []) e =
    (Success (VObj [("message", VStr "pong"); ("echo", VUndefined)]), count_run e) /\
  invoke (appRouter st) "health.ping" VUndefined e =
    (Failure (ValidationError [mkIssue [] ExpObject]), e).
Proof. by repeat split. Qed.

(** C6 as stated fails: [health.log] called with no input fails. *)
Lemma health_log_no_input_counterexample :
  invoke (appRouter 0) "health.log" VUndefined sample_env =
    (Failure (ValidationError [mkIssue [] ExpObject]), sample_env) /\
  ~ exists data e',
      invoke (appRouter 0) "health.log" VUndefined sample_env = (Success data, e').
Proof.
  assert (invoke (appRouter 0) "health.log" VUndefined sample_env =
            (Failure (ValidationError [mkIssue [] ExpObject]), sample_env))
    as H by reflexivity.
  split; [done|]. intros (data & e' & He'). rewrite H in He'. discriminate.
Qed.

Lemma health_log_call st raw e :
  invoke (appRouter st) "health.log" raw e =
    match safeParse pingInputSchema raw with
    | Parsed out =>
        (Success (VObj [("logged", VBool true);
                        ("timestamp", VDate (clock e (reads e)))]),
         mkEnv (clock e) (S (reads e)) (npm_package_version e)
               (console e ++ ["[Health Log] " +:+
                              nullish_str (echo (asPingInput out)) "No message"])
               (S (resolver_runs e)))
    | Invalid issues => (Failure (ValidationError issues), e)
    end.
Proof.
  change (invoke (appRouter st) "health.log" raw e)
    with (call "health.log" health_log raw e).
  unfold call, health_log, procedure_with_input. cbn [proc_validate proc_resolver].
  by destruct (safeParse pingInputSchema raw).
Qed.

(** C6, amended. [health.log] called with [{echo: "x"}] writes the line
    and returns [{logged: true, timestamp: <Date>}]; for every input that is
    an object whose [echo] is absent, [undefined] or a string the call
    returns that shape and does not fail; a completely absent input is
    rejected: the call fails with a [ValidationError] at the root, and
    neither logs nor reads the clock. *)
Theorem health_log_results (st : Z) (e : Env) :
  invoke (appRouter st) "health.log" (VObj [("echo", VStr "x")]) e =
    (Success (VObj [("logged", VBool true);
                    ("timestamp", VDate (clock e (reads e)))]),
     mkEnv (clock e) (S (reads e)) (npm_package_version e)
           (console e ++ ["[Health Log] x"]) (S (resolver_runs e))) /\
  (forall raw,
     valid_ping_input raw ->
     exists e',
       invoke (appRouter st) "health.log" raw e =
         (Success (VObj [("logged", VBool true);
                         ("timestamp", VDate (clock e (reads e)))]), e') /\
       console e' =
         (console e ++ ["[Health Log] " +:+
                        nullish_str (echo (asPingInput raw)) "No message"])%list) /\
  invoke (appRouter st) "health.log" VUndefined e =
    (Failure (ValidationError [mkIssue [] ExpObject]), e).
Proof.
  split; [reflexivity|]. split; [|reflexivity].
  intros raw Hv. destruct (valid_ping_input_parsed raw Hv) as (out & Hp & He).
  rewrite health_log_call, Hp. eexists. split; [done|].
  cbn [console]. by rewrite He.
Qed.

(** ** Validation *)

(** Induction on schemas, with the hypothesis for every field of an
    object schema. *)
Lemma Schema_nested_ind (P : Schema -> Prop) :
  P ZString -> P ZNumber -> P ZDate ->
  (forall options, P (ZEnum options)) ->
  (forall inner, P inner -> P (ZOptional inner)) ->
  (forall shape, Forall (fun ks => P ks.2) shape -> P (ZObject shape)) ->
  forall s, P s.
Proof.
  intros HS HN HD HE HO HOb.
  fix IH 1. intros [| | |options|inner|shape].
  - exact HS.
  - exact HN.
  - exact HD.
  - apply HE.
  - apply HO, IH.
  - apply HOb. induction shape as [|[k sk] shape IHshape].
    + constructor.
    + constructor; [apply IH | apply IHshape].
Qed.

Lemma check_issues e path v issues :
  Zod.check e path v = Invalid issues ->
  issues <> [] /\ Forall (issue_located path v) issues.
Proof.
  unfold Zod.check. destruct (conforms e v) eqn:E; [done|].
  intros [= <-]. split; [done|]. constructor; [|constructor].
  exists []. simpl. by rewrite app_nil_r.
Qed.

Lemma issue_located_field path v k i :
  issue_located (path ++ [k]) (get_prop v k) i -> issue_located path v i.
Proof.
  intros (suffix & Hp & Hc). exists (k :: suffix). split; [|done].
  by rewrite Hp, <- app_assoc.
Qed.

(** The fields of an object schema, parsed off the object [v]. *)
Lemma object_fields_issues path v shape :
  Forall (fun ks : string * Schema =>
            forall path v issues,
              parse_at ks.2 path v = Invalid issues ->
              issues <> [] /\ Forall (issue_located path v) issues) shape ->
  forall issues,
    (fix fields (sh : list (string * Schema))
       : ParseResult (list (string * value)) :=
       match sh with
       | [] => Parsed []
       | (k, sk) :: sh' =>
           merge_field v k (parse_at sk (path ++ [k]) (get_prop v k))
                       (fields sh')
       end) shape = Invalid issues ->
    issues <> [] /\ Forall (issue_located path v) issues.
Proof.
  intros IH.
  induction IH as [|[k sk] shape Hk _ IHshape]; intros issues; [done|].
  cbn [snd] in Hk. cbn fix beta iota.
  match goal with
  | |- merge_field _ _ ?r ?rest = _ -> _ =>
      destruct r as [out|issues1] eqn:E1; destruct rest as [fs|issues2] eqn:E2
  end; cbn [merge_field].
  - destruct out; try done. by destruct (has_prop _ _).
  - intros [= <-]. by apply IHshape.
  - intros [= <-]. destruct (Hk _ _ _ E1) as [Hne Hall]. split; [done|].
    eapply Forall_impl; [exact Hall|]. intros i. apply (issue_located_field path v k).
  - intros [= <-]. destruct (Hk _ _ _ E1) as [Hne Hall].
    destruct (IHshape _ eq_refl) as [_ Hall2]. split.
    + by destruct issues1.
    + apply Forall_app. split; [|done].
      eapply Forall_impl; [exact Hall|]. intros i. apply (issue_located_field path v k).
Qed.

(** A failed parse reports at least one issue, and every issue it reports
    points at a place of the input that does not have the expected shape. *)
Lemma parse_at_issues s : forall path v issues,
  parse_at s path v = Invalid issues ->
  issues <> [] /\ Forall (issue_located path v) issues.
Proof.
  induction s as [| | |options|inner IH|shape IH] using Schema_nested_ind;
    intros path v issues; cbn [parse_at]; try apply check_issues.
  - destruct v; try apply IH. done.
  - destruct v as [| | | | |ms|items|fields];
      try (intros [= <-]; split; [done|]; constructor; [|constructor];
           exists []; simpl; by rewrite app_nil_r);
      (match goal with
       | |- match ?f shape with _ => _ end = _ -> _ =>
           destruct (f shape) eqn:E; [done|]
       end);
      intros [= <-]; by apply (object_fields_issues _ _ _ IH) in E.
Qed.

(** C4. For a procedure registered with an input schema and an input the
    schema rejects, invoking the procedure fails with a [ValidationError]
    carrying the schema's issues: there is at least one, and each names a
    place of the input that does not have the expected shape.  The
    resolver is not executed: the environment, its run counter included,
    is as before, and the result is the same whatever resolver is
    registered. *)
Theorem invalid_input_short_circuits {I : Type} (router : gmap string Procedure)
    (k : ProcKind) (schema : Schema) (view : value -> I)
    (resolver : I -> Env -> Outcome * Env)
    (path : string) (raw : value) (e : Env) (issues : list Issue) :
  router !! path = Some (procedure_with_input k schema view resolver) ->
  safeParse schema raw = Invalid issues ->
  invoke router path raw e = (Failure (ValidationError issues), e) /\
  resolver_runs (invoke router path raw e).2 = resolver_runs e /\
  (forall resolver',
     invoke (<[path := procedure_with_input k schema view resolver']> router)
            path raw e =
     invoke router path raw e) /\
  issues <> [] /\
  Forall (fun i => conforms (issue_expected i) (at_path raw (issue_path i)) = false)
         issues.
Proof.
  intros Hreg Hp.
  assert (forall r : I -> Env -> Outcome * Env,
            call path (procedure_with_input k schema view r) raw e =
              (Failure (ValidationError issues), e)) as Hcall.
  { intros r. unfold call, procedure_with_input. cbn [proc_validate].
    by rewrite Hp. }
  assert (invoke router path raw e = (Failure (ValidationError issues), e))
    as Hinv by (unfold invoke; by rewrite Hreg, Hcall).
  split; [done|]. split; [by rewrite Hinv|].
  split; [intros r; unfold invoke at 1; by rewrite lookup_insert_eq, Hcall, Hinv|].
  destruct (parse_at_issues schema [] raw issues Hp) as [Hne Hall].
  split; [done|]. eapply Forall_impl; [exact Hall|].
  intros i (suffix & Hpath & Hc). simpl in Hpath. by rewrite Hpath.
Qed.

Lemma invalid_input_short_circuits_witness :
  let raw := VObj [("echo", VNum 42)] in
  let issues := [mkIssue ["echo"] ExpString] in
  appRouter 0 !! "health.ping" =
    Some (procedure_with_input query pingInputSchema asPingInput ping_resolver) /\
  safeParse pingInputSchema raw = Invalid issues /\
  (invoke (appRouter 0) "health.ping" raw sample_env =
     (Failure (ValidationError issues), sample_env) /\
   resolver_runs (invoke (appRouter 0) "health.ping" raw sample_env).2 =
     resolver_runs sample_env /\
   (forall resolver',
      invoke (<["health.ping" :=
                  procedure_with_input query pingInputSchema asPingInput resolver']>
                (appRouter 0))
             "health.ping" raw sample_env =
      invoke (appRouter 0) "health.ping" raw sample_env) /\
   issues <> [] /\
   Forall (fun i => conforms (issue_expected i) (at_path raw (issue_path i)) = false)
          issues).
Proof.
  intros raw issues. split; [reflexivity|]. split; [reflexivity|].
  apply (invalid_input_short_circuits (appRouter 0) query pingInputSchema
           asPingInput ping_resolver "health.ping" raw sample_env issues);
    reflexivity.
Defined.

(** ** More on the health procedures *)

Lemma health_ping_call st raw e :
  invoke (appRouter st) "health.ping" raw e =
    match safeParse pingInputSchema raw with
    | Parsed out =>
        (Success (VObj [("message", VStr "pong");
                        ("echo", of_opt_str (echo (asPingInput out)))]),
         count_run e)
    | Invalid issues => (Failure (ValidationError issues), e)
    end.
Proof.
  change (invoke (appRouter st) "health.ping" raw e)
    with (call "health.ping" health_ping raw e).
  unfold call, health_ping, procedure_with_input. cbn [proc_validate proc_resolver].
  by destruct (safeParse pingInputSchema raw).
Qed.

Lemma pingInputSchema_parsed_echo raw out :
  safeParse pingInputSchema raw = Parsed out ->
  echo (asPingInput out) = echo (asPingInput raw) /\
  of_opt_str (echo (asPingInput raw)) = get_prop raw "echo".
Proof.
  rewrite pingInputSchema_parse. unfold asPingInput.
  destruct raw as [| | | | |ms|items|fields]; try done.
  - intros [= <-]. done.
  - destruct (get_prop (VObj fields) "echo") eqn:E; try done.
    + destruct (has_prop (VObj fields) "echo"); intros [= <-]; done.
    + intros [= <-]. done.
Qed.

(** What [health.check] returns satisfies the declared contract
    [healthCheckSchema], on every call. *)
Theorem health_check_conforms (st : Z) (raw : value) (e : Env) :
  exists data e',
    invoke (appRouter st) "health.check" raw e = (Success data, e') /\
    safeParse healthCheckSchema data = Parsed data.
Proof. eexists _, _. split; [apply health_check_call | reflexivity]. Qed.

(** Whenever [health.ping] succeeds, its result satisfies [pingSchema],
    its message is ["pong"] and its [echo] is the [echo] of the input. *)
Theorem health_ping_conforms (st : Z) (raw : value) (e e' : Env)
    (data : value) :
  invoke (appRouter st) "health.ping" raw e = (Success data, e') ->
  safeParse pingSchema data = Parsed data /\
  get_prop data "message" = VStr "pong" /\
  get_prop data "echo" = get_prop raw "echo".
Proof.
  rewrite health_ping_call.
  destruct (safeParse pingInputSchema raw) as [out|issues] eqn:Hp; [|done].
  destruct (pingInputSchema_parsed_echo raw out Hp) as [He Hecho].
  rewrite He. clear He. revert Hecho.
  generalize (echo (asPingInput raw)). intros o Hecho [= <- _].
  split; [|split; [done|]].
  - destruct o; reflexivity.
  - exact Hecho.
Qed.

Lemma health_ping_conforms_witness :
  invoke (appRouter 0) "health.ping" (VObj [("echo", VStr "hi"); ("n", VNum 1)])
         sample_env =
    (Success (VObj [("message", VStr "pong"); ("echo", VStr "hi")]),
     count_run sample_env) /\
  (safeParse pingSchema (VObj [("message", VStr "pong"); ("echo", VStr "hi")]) =
     Parsed (VObj [("message", VStr "pong"); ("echo", VStr "hi")]) /\
   get_prop (VObj [("message", VStr "pong"); ("echo", VStr "hi")]) "message" =
     VStr "pong" /\
   get_prop (VObj [("message", VStr "pong"); ("echo", VStr "hi")]) "echo" =
     get_prop (VObj [("echo", VStr "hi"); ("n", VNum 1)]) "echo").
Proof.
  split; [reflexivity|].
  apply (health_ping_conforms 0 (VObj [("echo", VStr "hi"); ("n", VNum 1)])
           sample_env (count_run sample_env)).
  reflexivity.
Defined.

(** An input that passes [pingInputSchema] reaches the handler with its
    [echo] and nothing else: every other key is stripped, and validating
    the validated input again changes nothing. *)
Theorem pingInputSchema_strips (raw out : value) :
  safeParse pingInputSchema raw = Parsed out ->
  get_prop out "echo" = get_prop raw "echo" /\
  (forall k, k <> "echo" -> get_prop out k = VUndefined) /\
  safeParse pingInputSchema out = Parsed out.
Proof.
  rewrite pingInputSchema_parse.
  destruct raw as [| | | | |ms|items|fields]; try done.
  { intros [= <-]. by repeat split. }
  destruct (get_prop (VObj fields) "echo") as [| | | |s| | |] eqn:E; try done.
  - destruct (has_prop (VObj fields) "echo"); intros [= <-];
      (split; [done|]; split; [|reflexivity]); intros k Hk; simpl;
      try done; by rewrite bool_decide_eq_false_2 by congruence.
  - intros [= <-]. split; [done|]. split; [|reflexivity].
    intros k Hk. simpl. by rewrite bool_decide_eq_false_2 by congruence.
Qed.

Lemma pingInputSchema_strips_witness :
  let raw := VObj [("admin", VBool true); ("echo", VStr "hi")] in
  let out := VObj [("echo", VStr "hi")] in
  safeParse pingInputSchema raw = Parsed out /\
  (get_prop out "echo" = get_prop raw "echo" /\
   (forall k, k <> "echo" -> get_prop out k = VUndefined) /\
   safeParse pingInputSchema out = Parsed out).
Proof.
  intros raw out. split; [reflexivity|].
  apply (pingInputSchema_strips raw out). reflexivity.
Defined.

(** The uptime [health.check] reports is the whole number of seconds
    elapsed since module load: the elapsed milliseconds lie between
    [1000 * uptime] and [1000 * uptime + 999]. *)
Theorem health_check_uptime_seconds (st : Z) (raw : value) (e : Env) :
  exists data e' u,
    invoke (appRouter st) "health.check" raw e = (Success data, e') /\
    get_prop data "uptime" = VNum u /\
    (1000 * u <= call_time e - st < 1000 * u + 1000)%Z.
Proof.
  eexists _, _, _. split; [apply health_check_call|]. split; [reflexivity|].
  unfold uptime_at.
  pose proof (Z.div_mod (call_time e - st) 1000 ltac:(lia)) as Hdm.
  pose proof (Z.mod_pos_bound (call_time e - st) 1000 ltac:(lia)) as Hm.
  lia.
Qed.

(** A procedure registered as a query never writes to the console and
    never changes the clock or the package version, whatever its input;
    it takes at most two clock readings. *)
Theorem queries_leave_console (st : Z) (path : string) (p : Procedure)
    (raw : value) (e : Env) :
  appRouter st !! path = Some p ->
  proc_kind p = query ->
  let e' := (invoke (appRouter st) path raw e).2 in
  console e' = console e /\
  clock e' = clock e /\
  npm_package_version e' = npm_package_version e /\
  (reads e <= reads e' <= reads e + 2)%nat.
Proof.
  intros Hreg Hkind.
  destruct (decide (path = "health.check")) as [->|Hc].
  { rewrite health_check_call. simpl. split_and?; auto; lia. }
  destruct (decide (path = "health.ping")) as [->|Hp].
  { rewrite health_ping_call.
    destruct (safeParse pingInputSchema raw); simpl; split_and?; auto; lia. }
  destruct (decide (path = "health.log")) as [->|Hl].
  { rewrite appRouter_procedures in Hreg.
    rewrite !lookup_insert_ne, lookup_insert_eq in Hreg by done.
    injection Hreg as <-. done. }
  assert (appRouter st !! path = None) as Hnone.
  { apply appRouter_registered. rewrite !not_elem_of_cons.
    split_and?; auto. apply not_elem_of_nil. }
  congruence.
Qed.

Lemma queries_leave_console_witness :
  appRouter 0 !! "health.check" = Some (health_check 0) /\
  proc_kind (health_check 0) = query /\
  let e' := (invoke (appRouter 0) "health.check" VNull sample_env).2 in
  console e' = console sample_env /\
  clock e' = clock sample_env /\
  npm_package_version e' = npm_package_version sample_env /\
  (reads sample_env <= reads e' <= reads sample_env + 2)%nat.
Proof.
  split; [reflexivity|]. split; [reflexivity|].
  apply (queries_leave_console 0 "health.check" (health_check 0) VNull sample_env);
    reflexivity.
Defined.

(** ** The [users] table and the seed script *)

Lemma conflicts_false t n :
  Db.conflicts t n = false <->
  (Db.new_id n ∉ (Db.user_id <$> t)) /\ (Db.new_email n ∉ (Db.user_email <$> t)).
Proof.
  unfold Db.conflicts. rewrite orb_false_iff, !bool_decide_eq_false. done.
Qed.

Lemma insert_rows_appends now rows : forall t t',
  Db.insert_rows now rows t = Some t' -> t' = (t ++ (Db.stored now <$> rows))%list.
Proof.
  induction rows as [|n rows IH]; intros t t'; simpl.
  - intros [= <-]. by rewrite app_nil_r.
  - destruct (Db.conflicts t n); [done|]. intros H. apply IH in H.
    by rewrite H, <- app_assoc.
Qed.

Lemma insert_rows_is_Some now rows : forall t,
  Db.unique_keys t ->
  (is_Some (Db.insert_rows now rows t) <->
   NoDup ((Db.user_id <$> t) ++ (Db.new_id <$> rows)) /\
   NoDup ((Db.user_email <$> t) ++ (Db.new_email <$> rows))).
Proof.
  induction rows as [|n rows IH]; intros t [Hid Hem]; simpl.
  - rewrite !app_nil_r. split; [done | by eexists].
  - destruct (Db.conflicts t n) eqn:Hc.
    + split; [by intros [? [=]]|]. intros [H1 H2].
      apply NoDup_app in H1 as (_ & H1 & _). apply NoDup_app in H2 as (_ & H2 & _).
      unfold Db.conflicts in Hc. apply orb_true_iff in Hc as [Hc|Hc];
        apply bool_decide_eq_true in Hc.
      * destruct (H1 _ Hc). by left.
      * destruct (H2 _ Hc). by left.
    + apply conflicts_false in Hc as [Hc1 Hc2]. rewrite IH.
      * rewrite !fmap_app. simpl. by rewrite <- !app_assoc.
      * split; rewrite fmap_app; simpl; apply NoDup_app;
          (split; [done|]); (split; [|apply NoDup_singleton]);
          intros x Hx Hx'; apply list_elem_of_singleton in Hx'; by subst.
Qed.

(** A successful insert appends the rows, with their defaults filled in,
    after the rows already there, and the table still has no two rows with
    the same [id] or the same [email]. *)
Theorem insert_values_keeps_unique (now : Z) (rows : list Db.NewUser)
    (t t' : list Db.User) :
  Db.unique_keys t ->
  Db.insert_values now rows t = inr t' ->
  t' = (t ++ (Db.stored now <$> rows))%list /\ Db.unique_keys t'.
Proof.
  intros Hu. unfold Db.insert_values. destruct rows as [|n rows]; [done|].
  destruct (Db.insert_rows now (n :: rows) t) as [t2|] eqn:E; [|done].
  intros [= <-]. pose proof (insert_rows_appends _ _ _ _ E) as ->.
  split; [done|].
  assert (is_Some (Db.insert_rows now (n :: rows) t)) as Hs by by eexists.
  apply insert_rows_is_Some in Hs as [H1 H2]; [|done].
  unfold Db.unique_keys. rewrite !fmap_app, <- !list_fmap_compose. done.
Qed.

Lemma insert_values_keeps_unique_witness :
  let t := [Db.mkUser "a" "Ann" "ann@example.com" 5 5] in
  let rows := [Db.mkNewUser "b" "Bob" "bob@example.com" (Some 61999%Z) None] in
  let t' := [Db.mkUser "a" "Ann" "ann@example.com" 5 5;
             Db.mkUser "b" "Bob" "bob@example.com" 61 70] in
  Db.unique_keys t /\
  Db.insert_values 70 rows t = inr t' /\
  (t' = (t ++ (Db.stored 70 <$> rows))%list /\ Db.unique_keys t').
Proof.
  intros t rows t'.
  assert (Db.unique_keys t) as Hu.
  { split; simpl; apply NoDup_singleton. }
  split; [exact Hu|]. split; [reflexivity|].
  apply (insert_values_keeps_unique 70 rows t t' Hu). reflexivity.
Defined.

(** On a table with unique keys, an insert of at least one row succeeds
    exactly when no [id] and no [email] occurs twice among the rows
    already there and the rows given; otherwise it fails with a unique
    constraint error. *)
Theorem insert_values_succeeds_iff (now : Z) (rows : list Db.NewUser)
    (t : list Db.User) :
  Db.unique_keys t ->
  rows <> [] ->
  ((exists t', Db.insert_values now rows t = inr t') <->
   NoDup ((Db.user_id <$> t) ++ (Db.new_id <$> rows)) /\
   NoDup ((Db.user_email <$> t) ++ (Db.new_email <$> rows))) /\
  ((forall t', Db.insert_values now rows t <> inr t') ->
   Db.insert_values now rows t = inl Db.UniqueConstraintFailed).
Proof.
  intros Hu Hne. rewrite <- (insert_rows_is_Some now rows t Hu).
  unfold Db.insert_values. destruct rows as [|n rows]; [done|].
  destruct (Db.insert_rows now (n :: rows) t) as [t2|] eqn:E.
  - split; [split; intros _; by eexists|]. intros H. by destruct (H t2).
  - split; [|done]. split; [by intros [? [=]] | by intros [? [=]]].
Qed.

Lemma insert_values_succeeds_iff_witness :
  let t := [Db.mkUser "a" "Ann" "ann@example.com" 5 5] in
  let rows := [Db.mkNewUser "b" "Ann again" "ann@example.com" None None] in
  Db.unique_keys t /\
  rows <> [] /\
  (((exists t', Db.insert_values 70 rows t = inr t') <->
    NoDup ((Db.user_id <$> t) ++ (Db.new_id <$> rows)) /\
    NoDup ((Db.user_email <$> t) ++ (Db.new_email <$> rows))) /\
   ((forall t', Db.insert_values 70 rows t <> inr t') ->
    Db.insert_values 70 rows t = inl Db.UniqueConstraintFailed)).
Proof.
  intros t rows.
  assert (Db.unique_keys t) as Hu.
  { split; simpl; apply NoDup_singleton. }
  assert (rows <> []) as Hne by discriminate.
  split; [exact Hu|]. split; [exact Hne|].
  apply (insert_values_succeeds_iff 70 rows t Hu Hne).
Defined.

(** With two different UUIDs, seeding leaves exactly the two seed users
    in the table, whatever was there before: it is the same table for
    every starting process, so seeding again replaces the rows and does not add
    to them.  Both rows carry the time of the insert, both lines are
    logged and the process does not exit with an error. *)
Theorem seed_replaces (uuid1 uuid2 : string) (now : Z) (p : Db.Process) :
  uuid1 <> uuid2 ->
  Db.table (Db.seed uuid1 uuid2 now p) =
    [ Db.mkUser uuid1 "Admin User" "admin@example.com" now now;
      Db.mkUser uuid2 "Test User" "test@example.com" now now ] /\
  Db.logged (Db.seed uuid1 uuid2 now p) =
    (Db.logged p ++ ["Seeding database..."; "Seeding complete!"])%list /\
  Db.errors (Db.seed uuid1 uuid2 now p) = Db.errors p /\
  Db.exit_code (Db.seed uuid1 uuid2 now p) = Db.exit_code p /\
  forall p', Db.table (Db.seed uuid1 uuid2 now p') =
             Db.table (Db.seed uuid1 uuid2 now p).
Proof.
  intros Hne.
  assert (forall q, Db.insert_values now (Db.seed_rows uuid1 uuid2)
                      (Db.delete_all (Db.table q)) =
                    inr [ Db.mkUser uuid1 "Admin User" "admin@example.com" now now;
                          Db.mkUser uuid2 "Test User" "test@example.com" now now ])
    as Hins.
  { intros q. unfold Db.insert_values, Db.seed_rows, Db.delete_all, Db.insert_rows.
    assert (Db.conflicts [] (Db.mkNewUser uuid1 "Admin User" "admin@example.com" None None)
            = false) as -> by done.
    assert (Db.conflicts ([] ++ [Db.stored now
              (Db.mkNewUser uuid1 "Admin User" "admin@example.com" None None)])
              (Db.mkNewUser uuid2 "Test User" "test@example.com" None None) = false) as ->.
    { apply conflicts_false. simpl. rewrite !list_elem_of_singleton.
      split; [congruence | discriminate]. }
    done. }
  assert (forall q, Db.seed uuid1 uuid2 now q =
            Db.mkProcess
              [ Db.mkUser uuid1 "Admin User" "admin@example.com" now now;
                Db.mkUser uuid2 "Test User" "test@example.com" now now ]
              ((Db.logged q ++ ["Seeding database..."]) ++ ["Seeding complete!"])%list
              (Db.errors q) (Db.exit_code q)) as Hseed.
  { intros q. unfold Db.seed. cbv zeta. by rewrite Hins. }
  rewrite !Hseed. cbn [Db.table Db.logged Db.errors Db.exit_code].
  rewrite <- app_assoc. split_and?; try done. intros p'. by rewrite Hseed.
Qed.

Lemma seed_replaces_witness :
  let p := Db.mkProcess [Db.mkUser "old" "Old User" "admin@example.com" 1 2] [] [] None in
  "7c9e6679" <> "0b8a4f52" /\
  (Db.table (Db.seed "7c9e6679" "0b8a4f52" 1700000000 p) =
     [ Db.mkUser "7c9e6679" "Admin User" "admin@example.com" 1700000000 1700000000;
       Db.mkUser "0b8a4f52" "Test User" "test@example.com" 1700000000 1700000000 ] /\
   Db.logged (Db.seed "7c9e6679" "0b8a4f52" 1700000000 p) =
     (Db.logged p ++ ["Seeding database..."; "Seeding complete!"])%list /\
   Db.errors (Db.seed "7c9e6679" "0b8a4f52" 1700000000 p) = Db.errors p /\
   Db.exit_code (Db.seed "7c9e6679" "0b8a4f52" 1700000000 p) = Db.exit_code p /\
   forall p', Db.table (Db.seed "7c9e6679" "0b8a4f52" 1700000000 p') =
              Db.table (Db.seed "7c9e6679" "0b8a4f52" 1700000000 p)).
Proof.
  intros p. split; [discriminate|].
  apply (seed_replaces "7c9e6679" "0b8a4f52" 1700000000 p). discriminate.
Defined.

(** When the two UUIDs coincide the insert fails on the primary key, and
    since the delete before it is not undone the table is left empty,
    whatever it held: the failure is reported, ["Seeding complete!"] is
    not logged and the process exits with status 1. *)
Theorem seed_collision_empties (uuid : string) (now : Z) (p : Db.Process) :
  Db.seed uuid uuid now p =
    Db.mkProcess []
      (Db.logged p ++ ["Seeding database..."])%list
      (Db.errors p ++ [("Seeding failed:", Db.UniqueConstraintFailed)])%list
      (Some 1%nat).
Proof.
  unfold Db.seed, Db.insert_values, Db.seed_rows, Db.delete_all, Db.insert_rows.
  assert (Db.conflicts [] (Db.mkNewUser uuid "Admin User" "admin@example.com" None None)
          = false) as -> by done.
  assert (Db.conflicts ([] ++ [Db.stored now
            (Db.mkNewUser uuid "Admin User" "admin@example.com" None None)])
            (Db.mkNewUser uuid "Test User" "test@example.com" None None) = true) as ->.
  { unfold Db.conflicts. simpl. apply orb_true_iff. left.
    apply bool_decide_eq_true. by apply list_elem_of_singleton. }
  done.
Qed.

(** ** The sync script *)

Ltac in_list :=
  solve [rewrite ?elem_of_cons; repeat (first [by left | right])].

Ltac not_in_list H :=
  exfalso; rewrite ?elem_of_cons, ?elem_of_nil in H; intuition discriminate.

Ltac sync_cases :=
  unfold Sync.run_sync, Sync.sync, Sync.must, Sync.attempt, Sync.bind,
         Sync.echo, Sync.exit, Sync.ret;
  repeat (case_decide; cbn [fst snd]).

(** The script exits with status 0 in exactly two situations: there was
    nothing to commit, or the stash, the staging and the commit succeeded
    and one of the two pushes did; in both a commit message was given and
    the branch could be read.  The results of the pull and of restoring
    the stash play no part. *)
Theorem sync_success_iff (sh : Sync.Cmd -> Sync.CmdResult) (msg : string) :
  let b := Sync.output (sh Sync.GitBranchShowCurrent) in
  (Sync.run_sync sh msg).1 = 0%nat <->
  msg <> "" /\
  Sync.status (sh Sync.GitBranchShowCurrent) = 0%nat /\
  (Sync.output (sh Sync.GitStatusPorcelain) = "" \/
   (Sync.status (sh Sync.GitStashPush) = 0%nat /\
    Sync.status (sh Sync.GitAddAll) = 0%nat /\
    Sync.status (sh (Sync.GitCommit msg)) = 0%nat /\
    (Sync.status (sh (Sync.GitPush b)) = 0%nat \/
     Sync.status (sh (Sync.GitPushUpstream b)) = 0%nat))).
Proof. intros b. subst b. sync_cases; intuition (congruence || lia). Qed.

(** Whatever the commands return, the script runs an initial part of one
    fixed sequence: branch, status, stash, pull, restore, stage, commit,
    push, push with upstream; it runs no command twice and none out of
    order. *)
Theorem sync_commands_in_order (sh : Sync.Cmd -> Sync.CmdResult) (msg : string) :
  Sync.commands (Sync.run_sync sh msg).2
    `prefix_of` Sync.plan msg (Sync.output (sh Sync.GitBranchShowCurrent)).
Proof. sync_cases; unfold Sync.plan; cbn; by eexists. Qed.

(** A push is attempted only with a commit message, after changes were
    found, and after the stash, the staging and the commit itself have
    succeeded. *)
Theorem sync_push_needs_commit (sh : Sync.Cmd -> Sync.CmdResult) (msg : string) :
  let b := Sync.output (sh Sync.GitBranchShowCurrent) in
  Sync.GitPush b ∈ Sync.commands (Sync.run_sync sh msg).2 \/
  Sync.GitPushUpstream b ∈ Sync.commands (Sync.run_sync sh msg).2 ->
  msg <> "" /\
  Sync.output (sh Sync.GitStatusPorcelain) <> "" /\
  Sync.status (sh Sync.GitStashPush) = 0%nat /\
  Sync.status (sh Sync.GitAddAll) = 0%nat /\
  Sync.status (sh (Sync.GitCommit msg)) = 0%nat /\
  Sync.GitCommit msg ∈ Sync.commands (Sync.run_sync sh msg).2.
Proof.
  intros b. subst b. sync_cases; cbn; intros Hin; split_and?;
    first [ done | in_list | not_in_list Hin ].
Qed.

(** Once the changes were stashed, restoring them is always attempted:
    neither the result of the pull nor any later failure comes between
    the two. *)
Theorem sync_stash_restored (sh : Sync.Cmd -> Sync.CmdResult) (msg : string) :
  Sync.GitStashPush ∈ Sync.commands (Sync.run_sync sh msg).2 ->
  Sync.status (sh Sync.GitStashPush) = 0%nat ->
  Sync.GitStashPop ∈ Sync.commands (Sync.run_sync sh msg).2.
Proof.
  sync_cases; cbn; intros Hin Hok;
    first [ congruence | in_list | not_in_list Hin ].
Qed.

(** Without a commit message the script runs no command at all and exits
    with status 1; and when there is no message or no change, no command
    that changes the repository or the remote is run. *)
Theorem sync_idle (sh : Sync.Cmd -> Sync.CmdResult) (msg : string) :
  msg = "" \/ Sync.output (sh Sync.GitStatusPorcelain) = "" ->
  Forall (fun c => Sync.changes_repository c = false)
         (Sync.commands (Sync.run_sync sh msg).2) /\
  (msg = "" ->
   (Sync.run_sync sh msg).1 = 1%nat /\ Sync.commands (Sync.run_sync sh msg).2 = []).
Proof.
  sync_cases; cbn; intros [Hm|Hs]; try congruence;
    (split; [repeat constructor | try done; intros; congruence]).
Qed.

(** The pull and the restoring of the stash are tolerated to fail: two
    repositories that differ only in what these two commands return see
    the same commands run and the same exit status. *)
Theorem sync_tolerates_pull_and_restore (sh sh' : Sync.Cmd -> Sync.CmdResult)
    (msg : string) :
  (forall c, (forall b, c <> Sync.GitPullRebase b) -> c <> Sync.GitStashPop ->
             sh' c = sh c) ->
  (Sync.run_sync sh' msg).1 = (Sync.run_sync sh msg).1 /\
  Sync.commands (Sync.run_sync sh' msg).2 = Sync.commands (Sync.run_sync sh msg).2.
Proof.
  intros Hagree.
  assert (forall c, match c with
                    | Sync.GitPullRebase _ | Sync.GitStashPop => True
                    | _ => sh' c = sh c
                    end) as H.
  { intros c. destruct c; try done; by apply Hagree. }
  pose proof (H Sync.GitBranchShowCurrent) as Hb.
  pose proof (H Sync.GitStatusPorcelain) as Hs.
  pose proof (H Sync.GitStashPush) as Hst.
  pose proof (H Sync.GitAddAll) as Ha.
  pose proof (H (Sync.GitCommit msg)) as Hc.
  pose proof (fun b => H (Sync.GitPush b)) as Hp.
  pose proof (fun b => H (Sync.GitPushUpstream b)) as Hpu.
  cbn in Hb, Hs, Hst, Ha, Hc, Hp, Hpu. clear H Hagree.
  unfold Sync.run_sync, Sync.sync, Sync.must, Sync.attempt, Sync.bind,
         Sync.echo, Sync.exit, Sync.ret.
  rewrite ?Hb, ?Hs, ?Hst, ?Ha, ?Hc, ?Hp, ?Hpu.
  repeat (case_decide; cbn [fst snd]);
    rewrite ?Hp, ?Hpu in *; cbn;
    first [ congruence | split; [congruence || done | done] ].
Qed.

Lemma sync_push_needs_commit_witness :
  let sh := Sync.new_branch_repo in
  let msg := "feat: add health page" in
  let b := Sync.output (sh Sync.GitBranchShowCurrent) in
  (Sync.GitPush b ∈ Sync.commands (Sync.run_sync sh msg).2 \/
   Sync.GitPushUpstream b ∈ Sync.commands (Sync.run_sync sh msg).2) /\
  (msg <> "" /\
   Sync.output (sh Sync.GitStatusPorcelain) <> "" /\
   Sync.status (sh Sync.GitStashPush) = 0%nat /\
   Sync.status (sh Sync.GitAddAll) = 0%nat /\
   Sync.status (sh (Sync.GitCommit msg)) = 0%nat /\
   Sync.GitCommit msg ∈ Sync.commands (Sync.run_sync sh msg).2).
Proof.
  intros sh msg b.
  assert (Sync.GitPush b ∈ Sync.commands (Sync.run_sync sh msg).2 \/
          Sync.GitPushUpstream b ∈ Sync.commands (Sync.run_sync sh msg).2) as Hin.
  { left. vm_compute. in_list. }
  split; [exact Hin|]. exact (sync_push_needs_commit sh msg Hin).
Defined.

Lemma sync_stash_restored_witness :
  let sh := Sync.tracked_branch_repo in
  let msg := "fix: typo" in
  Sync.GitStashPush ∈ Sync.commands (Sync.run_sync sh msg).2 /\
  Sync.status (sh Sync.GitStashPush) = 0%nat /\
  Sync.GitStashPop ∈ Sync.commands (Sync.run_sync sh msg).2.
Proof.
  intros sh msg.
  assert (Sync.GitStashPush ∈ Sync.commands (Sync.run_sync sh msg).2) as Hin.
  { vm_compute. in_list. }
  split; [exact Hin|]. split; [reflexivity|].
  exact (sync_stash_restored sh msg Hin eq_refl).
Defined.

Lemma sync_idle_witness :
  let sh := Sync.new_branch_repo in
  ("" = "" \/ Sync.output (sh Sync.GitStatusPorcelain) = "") /\
  (Forall (fun c => Sync.changes_repository c = false)
          (Sync.commands (Sync.run_sync sh "").2) /\
   ("" = "" ->
    (Sync.run_sync sh "").1 = 1%nat /\ Sync.commands (Sync.run_sync sh "").2 = [])).
Proof.
  intros sh.
  split; [by left|]. apply (sync_idle sh ""). by left.
Defined.

Lemma sync_tolerates_pull_and_restore_witness :
  let msg := "docs: describe sync" in
  (forall c, (forall b, c <> Sync.GitPullRebase b) -> c <> Sync.GitStashPop ->
             Sync.tracked_branch_repo c = Sync.new_branch_repo c) /\
  ((Sync.run_sync Sync.tracked_branch_repo msg).1 =
     (Sync.run_sync Sync.new_branch_repo msg).1 /\
   Sync.commands (Sync.run_sync Sync.tracked_branch_repo msg).2 =
     Sync.commands (Sync.run_sync Sync.new_branch_repo msg).2).
Proof.
  intros msg.
  assert (forall c, (forall b, c <> Sync.GitPullRebase b) -> c <> Sync.GitStashPop ->
                    Sync.tracked_branch_repo c = Sync.new_branch_repo c) as Hagree.
  { intros c Hpull Hpop. destruct c; try reflexivity.
    - by destruct (Hpull branch).
    - by destruct Hpop. }
  split; [exact Hagree|].
  exact (sync_tolerates_pull_and_restore Sync.new_branch_repo
           Sync.tracked_branch_repo msg Hagree).
Defined.
